(** * A model of the colour picker mixin of viron (src/src/core/mixin.js)

    JS numbers are modelled as exact rationals [Q]; JS strings as lists of
    UTF-16 code units ([list N]), which is what JS regular expressions
    without the [u] flag match against.  The colour library [tinycolor2]
    is not part of the repository: it is an interface ([TinyColor]) over
    which every generic statement is quantified, and one concrete instance
    following tinycolor's own rgb/hsv arithmetic is given for examples. *)

From Stdlib Require Import QArith Qround Qminmax Qabs Qpower Lqa Lia ZArith Ascii DecimalNat.
From stdpp Require Import base gmap strings list.

Open Scope Q_scope.

(* ------------------------------------------------------------------ *)
(** ** JS strings and the regular expressions of the mixin *)

Definition jstring := list N.

(** Convert an ASCII literal into its UTF-16 code units. *)
Fixpoint js (s : string) : jstring :=
  match s with
  | EmptyString => []
  | String c s' => Ascii.N_of_ascii c :: js s'
  end.

Definition SHARP : N := 35%N.
Definition SPACE : N := 32%N.
(** U+3000 IDEOGRAPHIC SPACE, the "full-width space" of [/　/g]. *)
Definition FULLWIDTH_SPACE : N := 12288%N.

(** The character class [[0-9A-Fa-f]]. *)
Definition is_hex_digit (c : N) : bool :=
  ((48 <=? c)%N && (c <=? 57)%N) || ((65 <=? c)%N && (c <=? 70)%N)
  || ((97 <=? c)%N && (c <=? 102)%N).

(** The optional leading [#?] of an anchored pattern: a leading [#] can
    only be consumed by [#?], since it is not a hex digit. *)
Definition strip_sharp (s : jstring) : jstring :=
  match s with
  | c :: t => if (c =? SHARP)%N then t else s
  | [] => []
  end.

(** [isHex]: [/^#?([0-9A-Fa-f]{3}|[0-9A-Fa-f]{6})$/]. *)
Definition isHex (value : jstring) : bool :=
  let t := strip_sharp value in
  forallb is_hex_digit t && ((length t =? 3)%nat || (length t =? 6)%nat).

(** [isTypingHex]: [/^#?[0-9A-Fa-f]{0,6}$/]. *)
Definition isTypingHex (value : jstring) : bool :=
  let t := strip_sharp value in
  forallb is_hex_digit t && (length t <=? 6)%nat.

(** [concatenatePoundKey]: [value.match('^#')] is null iff no leading [#]. *)
Definition concatenatePoundKey (value : jstring) : jstring :=
  match value with
  | c :: _ => if (c =? SHARP)%N then value else SHARP :: value
  | [] => [SHARP]
  end.

(** [value.replace(/　/g, ' ')]. *)
Definition replace_fullwidth (value : jstring) : jstring :=
  map (fun c => if (c =? FULLWIDTH_SPACE)%N then SPACE else c) value.

(* ------------------------------------------------------------------ *)
(** ** Colour values *)

Inductive color_code := HEX | RGBA | HSV.

Definition color_code_eqb (a b : color_code) : bool :=
  match a, b with
  | HEX, HEX | RGBA, RGBA | HSV, HSV => true
  | _, _ => false
  end.

Record rgba := mk_rgba { r : Q; g : Q; b : Q; a : Q }.
Record hsv := mk_hsv { h : Q; s : Q; v : Q }.

(** The [value] field of a colour: a hex string, an rgba object or an hsv
    object. *)
Inductive cvalue :=
  | VStr (str : jstring)
  | VRgba (c : rgba)
  | VHsv (c : hsv).

Record color := mk_color { format : color_code; value : cvalue }.

(** [normalizeHexValue value] where [this.opts.color.value] is [prev].
    The input is [e.target.value], always a string, so the [isNull] and
    [isUndefined] tests after [replace] never fire. *)
Definition normalizeHexValue (value : jstring) (prev : cvalue) : cvalue :=
  let value := replace_fullwidth value in
  let value := if isHex value then concatenatePoundKey value else value in
  if isTypingHex value then VStr value else prev.

(* ------------------------------------------------------------------ *)
(** ** Numbers *)

(** [Math.round]: the nearest integer, halves rounded up. *)
Definition js_round (q : Q) : Q := inject_Z (Qfloor (q + (1 # 2))).

(** Rounding to the nearest integer, halves to the even one. *)
Definition round_half_even (q : Q) : Z :=
  let f := Qfloor q in
  match Qcompare (q - inject_Z f) (1 # 2) with
  | Lt => f
  | Gt => f + 1
  | Eq => if Z.even f then f else f + 1
  end.

(** [floor(log2 |x|)] for [x <> 0]: [log2] of the numerator minus [log2]
    of the denominator is that exponent or one more. *)
Definition fl_log2 (x : Q) : Z :=
  let L := (Z.log2 (Z.abs (Qnum x)) - Z.log2 (Zpos (Qden x)))%Z in
  if Qle_bool (2 ^ L) (Qabs x) then L else (L - 1)%Z.

(** The double a JavaScript arithmetic operation returns for the exact
    result [x]: IEEE 754 binary64 round to nearest, ties to even, with a
    53-bit significand and subnormals down to [2^-1074] (the results of
    this file stay far below the overflow to [Infinity]). A result that is
    a double is returned as it is. *)
Definition fl (x : Q) : Q :=
  if Z.eqb (Qnum x) 0 then x else
  let e := Z.max (fl_log2 x - 52) (-1074) in
  let y := (if Z.ltb (Qnum x) 0 then -1 else 1)
           * inject_Z (round_half_even (Qabs x / 2 ^ e)) * 2 ^ e in
  if Qeq_bool y x then x else y.

(** [(k / 100) * 100] in doubles is within [2^-47] of the integer [k] and
    rounds back to it. *)
Definition percent_ok (k : Z) : bool :=
  let q := fl (fl (inject_Z k / 100) * 100) in
  Qle_bool (Qabs (q - inject_Z k)) (2 ^ (-47)) && Qeq_bool (js_round q) (inject_Z k).

(** [x < y] on numbers. *)
Definition Qlt_bool (x y : Q) : bool := negb (Qle_bool y x).

(* ------------------------------------------------------------------ *)
(** ** The colour library, as an interface *)

(** The operations of [tinycolor2] the mixin uses. [tinycolor_of x] is
    [tinycolor(x)] for a string or an object; [tinycolor_hsv h s v] is
    [tinycolor(`hsv(${h}, ${s}%, ${v}%)`)]. *)
Class TinyColor := {
  tc : Type;
  tinycolor_of : cvalue -> tc;
  tinycolor_hsv : Q -> Q -> Q -> tc;
  toHexString : tc -> jstring;
  toRgb : tc -> rgba;
  toHsv : tc -> hsv
}.

(** The string [hsv(undefined, undefined%, undefined%)] that the HSV
    branch of [convertColor] builds from a value without [h], [s], [v]. *)
Definition hsv_undefined : jstring :=
  js "hsv(undefined, undefined%, undefined%)".

(** [getBoundingClientRect()]. *)
Record rect := mk_rect { left : Q; top : Q; width : Q; height : Q }.

(** [this.opts], the props the host passes in. *)
Record props := mk_props {
  opts_color : option color;
  opts_selectablecolorcode : option (color_code -> bool);
  opts_hsv : option hsv
}.

(** The state the mixin keeps: [this.color], the closure variables
    [selectableColorCode], [latestValidHue], [lastValidColor], the flag
    [this.isCatcherActive] and the current [this.opts]. *)
Record tag_state := mk_tag {
  this_color : color;
  selectableColorCode : color_code -> bool;
  latestValidHue : Q;
  lastValidColor : jstring;
  isCatcherActive : bool;
  opts : props
}.

Definition default_color : color := mk_color HEX (VStr []).

Definition default_selectable (f : color_code) : bool :=
  match f with HEX | RGBA => true | HSV => false end.

(** [selectableColorCode[f] = true]. *)
Definition set_selectable (sel : color_code -> bool) (f : color_code)
  : color_code -> bool :=
  fun f' => if color_code_eqb f' f then true else sel f'.

(** Outcome of a handler: it emits a value, raises a [TypeError], or is
    still looping when the fuel runs out. *)
Inductive outcome (A : Type) := Emit (x : A) | Throw | OutOfFuel.
Arguments Emit {A} x.
Arguments Throw {A}.
Arguments OutOfFuel {A}.

Section Mixin.
Context `{TC : TinyColor}.

(** [convertColor(colorCode, colorValue, exportColorcode)]. [None] is
    the [TypeError] of [colorValue.match] on a non-string HEX value. *)
Definition convert_source (lastValid : jstring) (colorCode : color_code)
    (colorValue : cvalue) : option tc :=
  match colorCode with
  | HEX =>
      match colorValue with
      | VStr str =>
          Some (if isHex str then tinycolor_of (VStr str)
                else tinycolor_of (VStr lastValid))
      | _ => None
      end
  | HSV =>
      match colorValue with
      | VHsv c => Some (tinycolor_hsv (h c) (s c) (v c))
      | _ => Some (tinycolor_of (VStr hsv_undefined))
      end
  | RGBA => Some (tinycolor_of colorValue)
  end.

Definition export (exportColorcode : color_code) (o : tc) : cvalue :=
  match exportColorcode with
  | HEX => VStr (toHexString o)
  | RGBA => VRgba (toRgb o)
  | HSV => VHsv (toHsv o)
  end.

Definition convertColor (lastValid : jstring) (colorCode : color_code)
    (colorValue : cvalue) (exportColorcode : color_code) : option cvalue :=
  option_map (export exportColorcode) (convert_source lastValid colorCode colorValue).

Definition as_hsv (x : cvalue) : option hsv :=
  match x with VHsv c => Some c | _ => None end.

(** [isMonochrome(format, value)]. *)
Definition isMonochrome (lastValid : jstring) (fmt : color_code) (val : cvalue)
  : option bool :=
  x ← convertColor lastValid fmt val HSV; hv ← as_hsv x; Some (Qeq_bool (s hv) 0).

(** [this.getHsv()]. *)
Definition getHsv (st : tag_state) : option hsv :=
  match opts_hsv (opts st) with
  | Some hv => Some hv
  | None =>
      x ← convertColor (lastValidColor st) (format (this_color st))
            (value (this_color st)) HSV;
      hv ← as_hsv x;
      (* [(Math.round(hsv.s * 100) / 100) * 100]: three double operations *)
      Some (mk_hsv (js_round (h hv))
                   (fl (fl (js_round (fl (s hv * 100)) / 100) * 100))
                   (fl (fl (js_round (fl (v hv * 100)) / 100) * 100)))
  end.

(** The two coordinates [getColorObject] computes before it reads the
    hue. *)
Definition clamp_x (rc : rect) (touchX : Q) : Q :=
  let x := js_round (touchX - left rc) in
  let x := if Qlt_bool (width rc) x then width rc else x in
  if Qlt_bool x 0 then 0 else x.

Definition clamp_y (rc : rect) (touchY : Q) : Q :=
  let y := js_round (touchY - top rc) in
  let y := if Qlt_bool (height rc) y then height rc else y in
  if Qlt_bool y 0 then (1 # 10) else y.

(** [getColorObject(touchX, touchY)], [rc] the bounding rectangle of
    [this.refs.canvasContainer]. *)
Definition getColorObject (st : tag_state) (rc : rect) (touchX touchY : Q)
  : option hsv :=
  let x := clamp_x rc touchX in
  let y := clamp_y rc touchY in
  hv ← getHsv st;
  Some (mk_hsv (h hv) (js_round (x / width rc * 100))
               (100 - js_round (y / height rc * 100))).

End Mixin.

(** Equality of two results up to the value of the numbers. *)
Definition hsv_eqv (p q : option hsv) : Prop :=
  match p, q with
  | Some x, Some y => h x == h y /\ s x == s y /\ v x == v y
  | None, None => True
  | _, _ => False
  end.

(* ------------------------------------------------------------------ *)
(** ** Lifecycle *)

(** The initialisation block of the mixin: defaults, then the widening of
    [selectableColorCode] to the current format. *)
Definition init (p : props) : tag_state :=
  let sel := match opts_selectablecolorcode p with
             | Some sel => sel | None => default_selectable end in
  let c := match opts_color p with Some c => c | None => default_color end in
  let sel := if negb (sel (format c)) then set_selectable sel (format c) else sel in
  mk_tag c sel 0 (js "#000000") false p.

(** The [on('update')] handler, with the new props [p]. [None] is the
    [TypeError] of [isHex] on a non-string HEX value. Redrawing the
    canvas ([updateSpectrum]) is left out. *)
Definition on_update (p : props) (st : tag_state) : option tag_state :=
  let sel := match opts_selectablecolorcode p with
             | Some sel => sel | None => default_selectable end in
  let c := match opts_color p with Some c => c | None => default_color end in
  match format c, value c with
  | HEX, VStr str =>
      Some (mk_tag c sel (latestValidHue st)
              (if isHex str then str else lastValidColor st)
              (isCatcherActive st) p)
  | HEX, _ => None
  | _, _ =>
      Some (mk_tag c sel (latestValidHue st) (lastValidColor st)
              (isCatcherActive st) p)
  end.

(* ------------------------------------------------------------------ *)
(** ** Format cycling: [handleColorChangeButtonTap] *)

Definition order : list color_code := [HEX; RGBA].

(** [order.indexOf(x)], [None] for [-1]. *)
Fixpoint indexOf (x : color_code) (l : list color_code) : option nat :=
  match l with
  | [] => None
  | y :: l' => if color_code_eqb x y then Some 0%nat
               else option_map S (indexOf x l')
  end.

(** The [do { ... } while (!selectableColorCode[order[index]])] loop, run
    for at most [fuel] iterations. *)
Fixpoint cycle_loop (fuel : nat) (sel : color_code -> bool) (index : nat)
  : option nat :=
  match fuel with
  | O => None
  | S fuel' =>
      let index := if (index =? length order - 1)%nat then 0%nat else S index in
      if sel (nth index order HEX) then Some index
      else cycle_loop fuel' sel index
  end.

Section Handlers.
Context `{TC : TinyColor}.

(** [handleColorChangeButtonTap()]: the colour passed to
    [this.opts.oncolorchange]. *)
Definition handleColorChangeButtonTap (fuel : nat) (st : tag_state)
  : outcome color :=
  let c := this_color st in
  match indexOf (format c) order with
  | None => Emit (mk_color HEX (VStr []))
  | Some index =>
      match cycle_loop fuel (selectableColorCode st) index with
      | None => OutOfFuel
      | Some index =>
          let f := nth index order HEX in
          match convertColor (lastValidColor st) (format c) (value c) f with
          | Some v' => Emit (mk_color f v')
          | None => Throw
          end
      end
  end.

(* ------------------------------------------------------------------ *)
(** ** Hue slider and spectrum pointer *)

(** [handleHueSliderChange(hue)]: the new state and the arguments of
    [oncolorchange]. *)
Definition handleHueSliderChange (hue : Q) (st : tag_state)
  : option (tag_state * (color * hsv)) :=
  let c := this_color st in
  x ← convertColor (lastValidColor st) (format c) (value c) HSV;
  hv0 ← as_hsv x;
  let hv := mk_hsv hue (js_round (s hv0 * 100)) (js_round (v hv0 * 100)) in
  cv ← convertColor (lastValidColor st) HSV (VHsv hv) (format c);
  Some (st, (mk_color (format c) cv, hv)).

Definition set_latestValidHue (st : tag_state) (hue : Q) : tag_state :=
  mk_tag (this_color st) (selectableColorCode st) hue (lastValidColor st)
    (isCatcherActive st) (opts st).

(** [handleCatcherMouseMove(e)] at page coordinates [(pageX, pageY)];
    [None] in the second component when nothing is emitted. *)
Definition handleCatcherMouseMove (rc : rect) (pageX pageY : Q) (st : tag_state)
  : option (tag_state * option (color * hsv)) :=
  if negb (isCatcherActive st) then Some (st, None) else
  let c := this_color st in
  hv ← getColorObject st rc pageX pageY;
  cv ← convertColor (lastValidColor st) HSV (VHsv hv) (format c);
  mono ← isMonochrome (lastValidColor st) (format c) cv;
  let st' := if negb mono then set_latestValidHue st (h hv) else st in
  Some (st', Some (mk_color (format c) cv, hv)).

End Handlers.

(** [this.getAlphaValue()]. [None]: an RGBA colour whose value is not an
    rgba object has no [a] to read. *)
Definition getAlphaValue (st : tag_state) : option Q :=
  match format (this_color st), value (this_color st) with
  | RGBA, VRgba c => Some (a c * 100)
  | RGBA, _ => None
  | _, _ => Some 100
  end.

(* ------------------------------------------------------------------ *)
(** ** A concrete instance: tinycolor's rgb/hsv arithmetic

    The object keeps tinycolor's unrounded [_r], [_g], [_b] and [_a].
    Strings are parsed as 3- or 6-digit hex with an optional [#]; every
    other string (CSS names, functional notations, 4/8-digit hex) is
    treated as unparsable, which tinycolor turns into black. *)
Module Tiny.

(** [bound01(n, max)] for a number [n]. *)
Definition bound01 (n max : Q) : Q :=
  let n := Qmin max (Qmax 0 n) in
  if Qlt_bool (Qabs (n - max)) (1 # 1000000) then 1 else n / max.

(** [bound01(n + '%', max)]: [parseInt(n * max, 10) / 100] first. *)
Definition bound01_pct (n max : Q) : Q :=
  let n := Qmin max (Qmax 0 n) in
  let n := inject_Z (Qfloor (n * max)) / 100 in
  if Qlt_bool (Qabs (n - max)) (1 # 1000000) then 1 else n / max.

(** The constructor's [if (this._r < 1) this._r = mathRound(this._r)]. *)
Definition small_round (x : Q) : Q := if Qlt_bool x 1 then js_round x else x.

Definition mk_obj (r0 g0 b0 a0 : Q) : rgba :=
  mk_rgba (small_round r0) (small_round g0) (small_round b0) a0.

(** [boundAlpha]. *)
Definition boundAlpha (x : Q) : Q :=
  if Qlt_bool x 0 || Qlt_bool 1 x then 1 else x.

(** [hsvToRgb(h, s, v)] on bounded [h], [s], [v] in [0, 1]. *)
Definition hsvToRgb (h0 s0 v0 : Q) : Q * Q * Q :=
  let h6 := h0 * 6 in
  let i := Qfloor h6 in
  let f := h6 - inject_Z i in
  let p := v0 * (1 - s0) in
  let q := v0 * (1 - f * s0) in
  let t := v0 * (1 - (1 - f) * s0) in
  let md := Z.to_nat (i mod 6) in
  let r0 := nth md [v0; q; p; p; t; v0] 0 in
  let g0 := nth md [t; v0; v0; q; p; p] 0 in
  let b0 := nth md [p; p; t; v0; v0; q] 0 in
  (r0 * 255, g0 * 255, b0 * 255).

(** [rgbToHsv(r, g, b)] on components in [0, 255]. *)
Definition rgbToHsv (r0 g0 b0 : Q) : hsv :=
  let r0 := bound01 r0 255 in
  let g0 := bound01 g0 255 in
  let b0 := bound01 b0 255 in
  let mx := Qmax r0 (Qmax g0 b0) in
  let mn := Qmin r0 (Qmin g0 b0) in
  let d := mx - mn in
  let s0 := if Qeq_bool mx 0 then 0 else d / mx in
  let h0 :=
    if Qeq_bool mx mn then 0
    else (if Qeq_bool mx r0 then (g0 - b0) / d + (if Qlt_bool g0 b0 then 6 else 0)
          else if Qeq_bool mx g0 then (b0 - r0) / d + 2
          else (r0 - g0) / d + 4) / 6 in
  mk_hsv h0 s0 mx.

Definition hex_val (c : N) : Q :=
  inject_Z (Z.of_N (if (c <=? 57)%N then c - 48
                    else if (c <=? 70)%N then c - 55 else c - 87)).

Definition black : rgba := mk_rgba 0 0 0 1.

(** Parse a 3- or 6-digit hex code. *)
Definition parse_hex (str : jstring) : rgba :=
  if negb (isHex str) then black else
  match strip_sharp str with
  | [c1; c2; c3] =>
      mk_obj (hex_val c1 * 17) (hex_val c2 * 17) (hex_val c3 * 17) 1
  | [c1; c2; c3; c4; c5; c6] =>
      mk_obj (hex_val c1 * 16 + hex_val c2) (hex_val c3 * 16 + hex_val c4)
             (hex_val c5 * 16 + hex_val c6) 1
  | _ => black
  end.

Definition of_hsv_bounded (h0 s0 v0 : Q) : rgba :=
  match hsvToRgb h0 s0 v0 with (r0, g0, b0) => mk_obj r0 g0 b0 1 end.

(** [convertToPercentage] of an hsv object's [s] or [v], then [bound01]. *)
Definition pct_component (n : Q) : Q :=
  if Qle_bool n 1 then bound01_pct (n * 100) 100 else bound01 n 100.

Definition of_value (x : cvalue) : rgba :=
  match x with
  | VStr str => parse_hex str
  | VRgba c =>
      mk_obj (bound01 (r c) 255 * 255) (bound01 (g c) 255 * 255)
             (bound01 (b c) 255 * 255) (boundAlpha (a c))
  | VHsv c =>
      of_hsv_bounded (bound01 (h c) 360) (pct_component (s c)) (pct_component (v c))
  end.

Definition hex_digit (d : Z) : N :=
  if (d <? 10)%Z then Z.to_N (48 + d) else Z.to_N (87 + d).

(** [pad2(mathRound(x).toString(16))]. *)
Definition hex2 (x : Q) : jstring :=
  let n := Qfloor (x + (1 # 2)) in
  [hex_digit (n / 16)%Z; hex_digit (n mod 16)%Z].

#[export] Instance tiny : TinyColor := {
  tc := rgba;
  tinycolor_of := of_value;
  tinycolor_hsv := fun h0 s0 v0 =>
    of_hsv_bounded (bound01 h0 360) (bound01_pct s0 100) (bound01_pct v0 100);
  toHexString := fun o => SHARP :: hex2 (r o) ++ hex2 (g o) ++ hex2 (b o);
  toRgb := fun o => mk_rgba (js_round (r o)) (js_round (g o)) (js_round (b o)) (a o);
  toHsv := fun o => let hv := rgbToHsv (r o) (g o) (b o) in
                    mk_hsv (h hv * 360) (s hv) (v hv)
}.

End Tiny.

(* ------------------------------------------------------------------ *)
(** ** The handlers that write through [this.color], with a heap

    [this.color] is an object the host also holds ([this.opts.color]);
    an RGBA value is a second object. The heap maps locations to these
    objects, so that writing through an alias is visible. *)
Module Heap.

Definition loc := positive.

Inductive jsval := JStr (str : jstring) | JRef (l : loc).

Inductive obj :=
  | OColor (fmt : color_code) (val : jsval)   (* {format, value} *)
  | ORgba (c : rgba).                         (* {r, g, b, a} *)

Record heap_state := mk_heap {
  mem : gmap loc obj;
  this_color_ref : loc;
  next_free : loc;
  lastValid : jstring
}.

Definition with_mem (hs : heap_state) (m : gmap loc obj) : heap_state :=
  mk_heap m (this_color_ref hs) (next_free hs) (lastValid hs).

(** [{...}]: a new object at a fresh location. *)
Definition alloc (hs : heap_state) (o : obj) : heap_state * loc :=
  (mk_heap (<[next_free hs := o]> (mem hs)) (this_color_ref hs)
     (Pos.succ (next_free hs)) (lastValid hs), next_free hs).

Definition read_value (hs : heap_state) (x : jsval) : option cvalue :=
  match x with
  | JStr str => Some (VStr str)
  | JRef l => match mem hs !! l with Some (ORgba c) => Some (VRgba c) | _ => None end
  end.

(** The colour [this.color] denotes. *)
Definition deref_color (hs : heap_state) : option color :=
  match mem hs !! this_color_ref hs with
  | Some (OColor f x) => c ← read_value hs x; Some (mk_color f c)
  | _ => None
  end.

(** The [value] an RGBA input handler receives: a number (a numeric field
    string is read as its number), or one of the falsy non-numbers of a
    cleared field. *)
Inductive input_value := INum (q : Q) | IEmpty | INull | IUndefined | INaN.

Coercion INum : Q >-> input_value.

(** [value || 0]: a falsy value (0, [''], [null], [undefined], [NaN]) gives 0. *)
Definition or_zero (val : input_value) : Q :=
  match val with
  | INum q => if Qeq_bool q 0 then 0 else q
  | _ => 0
  end.

Definition set_r (c : rgba) (x : Q) : rgba := mk_rgba x (g c) (b c) (a c).
Definition set_a (c : rgba) (x : Q) : rgba := mk_rgba (r c) (g c) (b c) x.

(** [handleInputRgbaRedInput(value)]: the heap after the handler and the
    location of the colour passed to [oncolorchange]. *)
Definition handleInputRgbaRedInput (val : input_value) (hs : heap_state)
  : option (heap_state * loc) :=
  let colorValue := or_zero val in
  match mem hs !! this_color_ref hs with
  | Some (OColor f x) =>
      let '(hs1, l) := alloc hs (OColor f x) in
      (* objectAssign(color.value, {r: colorValue}) *)
      let hs2 :=
        match x with
        | JRef lv =>
            match mem hs1 !! lv with
            | Some (ORgba c) => with_mem hs1 (<[lv := ORgba (set_r c colorValue)]> (mem hs1))
            | _ => hs1
            end
        | JStr _ => hs1   (* assigning onto a string's wrapper is lost *)
        end in
      Some (hs2, l)
  | _ => None
  end.

Section Alpha.
Context `{TC : TinyColor}.

(** [handleAlphaSliderChange(alpha)]. [const color = this.color] is an
    alias: the format is set before [convertColor] reads it back. [None]:
    the [TypeError] of setting [a] on a string in module (strict) code. *)
Definition handleAlphaSliderChange (alpha : Q) (hs : heap_state)
  : option (heap_state * loc) :=
  let l := this_color_ref hs in
  match mem hs !! l with
  | Some (OColor f x) =>
      hs1 ← (if color_code_eqb f RGBA then Some hs else
               let hs0 := with_mem hs (<[l := OColor RGBA x]> (mem hs)) in
               src ← read_value hs0 x;
               cv ← convertColor (lastValid hs0) RGBA src RGBA;
               match cv with
               | VRgba c =>
                   let '(hs1, lc) := alloc hs0 (ORgba c) in
                   Some (with_mem hs1 (<[l := OColor RGBA (JRef lc)]> (mem hs1)))
               | _ => None
               end);
      match mem hs1 !! l with
      | Some (OColor _ (JRef lv)) =>
          match mem hs1 !! lv with
          | Some (ORgba c) =>
              Some (with_mem hs1 (<[lv := ORgba (set_a c (fl (alpha / 100)))]> (mem hs1)), l)
          | _ => None
          end
      | _ => None
      end
  | _ => None
  end.

End Alpha.
End Heap.

(* ------------------------------------------------------------------ *)
(** ** Display accessors, the other pointer handlers and the hex input *)

Section Display.
Context `{TC : TinyColor}.

(** [this.getSpectrumPosition(param)]. [None]: the [TypeError] of
    [getHsv]; [Some None]: the [undefined] returned for any other
    [param]. *)
Definition getSpectrumPosition (st : tag_state) (param : jstring) : option (option Q) :=
  hv ← getHsv st;
  if decide (param = js "saturation") then
    let saturation := s hv in
    let saturation := if Qlt_bool 100 saturation then 100 else saturation in
    let saturation := if Qlt_bool saturation 0 then 0 else saturation in
    Some (Some saturation)
  else if decide (param = js "brightness") then
    let brightness := 100 - v hv in
    let brightness := if Qlt_bool 100 brightness then 100 else brightness in
    let brightness := if Qlt_bool brightness 0 then 0 else brightness in
    Some (Some brightness)
  else Some None.

(** [this.getColorStyle()]; [num_str] is the template literal's [${n}]
    on a number. Reading [r] of a string or of an hsv object gives
    [undefined]. [None]: the [TypeError] of [isHex] on a non-string HEX
    value. *)
Definition getColorStyle (num_str : Q -> jstring) (st : tag_state) : option jstring :=
  let c := this_color st in
  match format c with
  | HEX =>
      match value c with
      | VStr str => Some (if isHex str then concatenatePoundKey str else lastValidColor st)
      | _ => None
      end
  | RGBA =>
      let fld := fun (sel : rgba -> Q) =>
        match value c with VRgba x => num_str (sel x) | _ => js "undefined" end in
      Some (js "rgba(" ++ fld r ++ js "," ++ fld g ++ js "," ++ fld b ++ js ","
            ++ fld a ++ js ")")
  | HSV => Some []
  end.

Definition set_catcher (st : tag_state) (active : bool) : tag_state :=
  mk_tag (this_color st) (selectableColorCode st) (latestValidHue st)
    (lastValidColor st) active (opts st).

(** The body the three pointer handlers share, after the flag. *)
Definition emit_pointer_color (rc : rect) (pageX pageY : Q) (st : tag_state)
  : option (tag_state * (color * hsv)) :=
  let c := this_color st in
  hv ← getColorObject st rc pageX pageY;
  cv ← convertColor (lastValidColor st) HSV (VHsv hv) (format c);
  mono ← isMonochrome (lastValidColor st) (format c) cv;
  let st' := if negb mono then set_latestValidHue st (h hv) else st in
  Some (st', (mk_color (format c) cv, hv)).

(** [handleCanvasMouseDown(e)]. *)
Definition handleCanvasMouseDown (rc : rect) (pageX pageY : Q) (st : tag_state)
  : option (tag_state * (color * hsv)) :=
  emit_pointer_color rc pageX pageY (set_catcher st true).

(** [handleCatcherMouseUp(e)]. *)
Definition handleCatcherMouseUp (rc : rect) (pageX pageY : Q) (st : tag_state)
  : option (tag_state * (color * hsv)) :=
  emit_pointer_color rc pageX pageY (set_catcher st false).

End Display.

(** The format the tap switches to when both are selectable. *)
Definition other_format (f : color_code) : color_code :=
  match f with HEX => RGBA | RGBA => HEX | HSV => HSV end.

(** [handleInputHexInput(e)] with [e.target.value = target_value]: the
    colour passed to [oncolorchange]. [normalizeHexValue] reads
    [this.opts.color.value] only when the input is rejected; [None] is
    the [TypeError] of reading it when the host passed no colour. *)
Definition handleInputHexInput (target_value : jstring) (st : tag_state) : option color :=
  let fmt := format (this_color st) in
  let newColor := replace_fullwidth target_value in
  let newColor := if isHex newColor then concatenatePoundKey newColor else newColor in
  if isTypingHex newColor then Some (mk_color fmt (VStr newColor))
  else option_map (fun oc => mk_color fmt (value oc)) (opts_color (opts st)).

(* ------------------------------------------------------------------ *)
(** ** The green and blue inputs, on the heap *)

Module Channels.
Import Heap.

Definition set_g (c : rgba) (x : Q) : rgba := mk_rgba (r c) x (b c) (a c).
Definition set_b (c : rgba) (x : Q) : rgba := mk_rgba (r c) (g c) x (a c).

(** The object a location holds, read as a colour. *)
Definition deref_at (hs : heap_state) (l : loc) : option color :=
  match mem hs !! l with
  | Some (OColor f x) => c ← read_value hs x; Some (mk_color f c)
  | _ => None
  end.

(** Every used location is below [next_free]. *)
Definition heap_wf (hs : heap_state) : Prop :=
  map_Forall (fun l _ => (l < next_free hs)%positive) (mem hs).

(** [handleInputRgbaGreenInput(value)]. *)
Definition handleInputRgbaGreenInput (val : input_value) (hs : heap_state)
  : option (heap_state * loc) :=
  let colorValue := or_zero val in
  match mem hs !! this_color_ref hs with
  | Some (OColor f x) =>
      let '(hs1, l) := alloc hs (OColor f x) in
      let hs2 :=
        match x with
        | JRef lv =>
            match mem hs1 !! lv with
            | Some (ORgba c) => with_mem hs1 (<[lv := ORgba (set_g c colorValue)]> (mem hs1))
            | _ => hs1
            end
        | JStr _ => hs1
        end in
      Some (hs2, l)
  | _ => None
  end.

(** [handleInputRgbaBlueInput(value)]. *)
Definition handleInputRgbaBlueInput (val : input_value) (hs : heap_state)
  : option (heap_state * loc) :=
  let colorValue := or_zero val in
  match mem hs !! this_color_ref hs with
  | Some (OColor f x) =>
      let '(hs1, l) := alloc hs (OColor f x) in
      let hs2 :=
        match x with
        | JRef lv =>
            match mem hs1 !! lv with
            | Some (ORgba c) => with_mem hs1 (<[lv := ORgba (set_b c colorValue)]> (mem hs1))
            | _ => hs1
            end
        | JStr _ => hs1
        end in
      Some (hs2, l)
  | _ => None
  end.

End Channels.

(* ------------------------------------------------------------------ *)
(** ** Touch gestures ([bindTouchEvents]'s three listeners) *)

Module Touch.

Definition TOUCH_ALLOW_RANGE : Q := 10.

(** The closure variables [touchX], [touchY] of one element and whether
    it carries the class [hover]. *)
Record touch_state := mk_touch { touchX : Q; touchY : Q; hover : bool }.

(** The start, move and end events, at page coordinates. *)
Inductive tevent := TStart (x y : Q) | TMove (x y : Q) | TEnd.

(** [Math.sqrt(dx ** 2 + dy ** 2) >= TOUCH_ALLOW_RANGE], compared on
    squares (both sides are non-negative). *)
Definition far (dx dy : Q) : bool :=
  Qle_bool (TOUCH_ALLOW_RANGE * TOUCH_ALLOW_RANGE) (dx * dx + dy * dy).

Definition PARENT : jstring := js "parent.".

(** [if (handlerName.indexOf('parent.') === 0) handlerName =
    handlerName.replace('parent.', '')]: the first occurrence is the
    prefix. *)
Definition resolve_handler (name : jstring) : jstring :=
  if decide (take (length PARENT) name = PARENT) then drop (length PARENT) name
  else name.

(** One listener call. [ontap] is the element's attribute ([None]: no
    attribute, [getAttribute] returns [null]); [tag_has n] is [!!tag[n]].
    The result is the new state and the handlers called; [None] is the
    [TypeError] of [null.indexOf]. *)
Definition step (ontap : option jstring) (tag_has : jstring -> bool)
    (ts : touch_state) (e : tevent) : option (touch_state * list jstring) :=
  match e with
  | TStart x y => Some (mk_touch x y true, [])
  | TMove x y =>
      if negb (hover ts) then Some (ts, [])
      else if far (x - touchX ts) (y - touchY ts)
      then Some (mk_touch (touchX ts) (touchY ts) false, [])
      else Some (ts, [])
  | TEnd =>
      let ts' := mk_touch (touchX ts) (touchY ts) false in
      if hover ts then
        match ontap with
        | None => None
        | Some name =>
            let handlerName := resolve_handler name in
            Some (ts', if negb (bool_decide (handlerName = [])) && tag_has handlerName
                       then [handlerName] else [])
        end
      else Some (ts', [])
  end.

(** A sequence of events on one element. *)
Fixpoint run (ontap : option jstring) (tag_has : jstring -> bool)
    (ts : touch_state) (es : list tevent) : option (touch_state * list jstring) :=
  match es with
  | [] => Some (ts, [])
  | e :: es' =>
      match step ontap tag_has ts e with
      | None => None
      | Some (ts1, o1) =>
          match run ontap tag_has ts1 es' with
          | None => None
          | Some (ts2, o2) => Some (ts2, o1 ++ o2)
          end
      end
  end.

(** A press at [(x0, y0)], moves through [moves], and a release. *)
Definition gesture (x0 y0 : Q) (moves : list (Q * Q)) : list tevent :=
  TStart x0 y0 :: map (fun p => TMove p.1 p.2) moves ++ [TEnd].

(** Whether every move stays within range of the press. *)
Definition within_range (x0 y0 : Q) (moves : list (Q * Q)) : bool :=
  forallb (fun p => negb (far (p.1 - x0) (p.2 - y0))) moves.

End Touch.

(* ------------------------------------------------------------------ *)
(** ** The listener registry [closureEventListener] and the binding *)

Module Listeners.

(** The digits of [n] in base 10, as [`${n}`] prints them. *)
Fixpoint uint_js (u : Decimal.uint) : jstring :=
  match u with
  | Decimal.Nil => []
  | Decimal.D0 u => 48%N :: uint_js u
  | Decimal.D1 u => 49%N :: uint_js u
  | Decimal.D2 u => 50%N :: uint_js u
  | Decimal.D3 u => 51%N :: uint_js u
  | Decimal.D4 u => 52%N :: uint_js u
  | Decimal.D5 u => 53%N :: uint_js u
  | Decimal.D6 u => 54%N :: uint_js u
  | Decimal.D7 u => 55%N :: uint_js u
  | Decimal.D8 u => 56%N :: uint_js u
  | Decimal.D9 u => 57%N :: uint_js u
  end.

Definition nat_js (n : nat) : jstring := uint_js (Nat.to_uint n).

(** [`t_${key}`]. *)
Definition eventId (k : nat) : jstring := js "t_" ++ nat_js k.

(** A registration [{target, type, listener, capture}]; elements and
    listener closures are identified by numbers. [capture] is the
    [undefined] of a three-argument call, i.e. [false]. *)
Record reg := mk_reg { target : nat; type : jstring; listener : nat; capture : bool }.

#[global] Instance reg_eq_dec : EqDecision reg := ltac:(solve_decision).

(** [target.addEventListener]: a registration equal to one already
    present is ignored. *)
Definition addEventListener (x : reg) (dom : list reg) : list reg :=
  if decide (x ∈ dom) then dom else dom ++ [x].

(** [target.removeEventListener]. *)
Definition removeEventListener (x : reg) (dom : list reg) : list reg :=
  filter (fun y => y <> x) dom.

(** The closure's [events] and [key], and the listeners the DOM holds. *)
Record world := mk_world { events : gmap jstring reg; key : nat; dom : list reg }.

(** [closureEventListener.add(target, type, listener, capture)]. *)
Definition add (tgt : nat) (ty : jstring) (lsn : nat) (cap : bool) (w : world)
  : world * jstring :=
  let x := mk_reg tgt ty lsn cap in
  let eventId0 := eventId (key w) in
  (mk_world (<[eventId0 := x]> (events w)) (S (key w)) (addEventListener x (dom w)),
   eventId0).

(** [closureEventListener.remove(key)]. *)
Definition remove (k : jstring) (w : world) : world :=
  match events w !! k with
  | None => w
  | Some x => mk_world (delete k (events w)) (key w) (removeEventListener x (dom w))
  end.

Definition SLASH : N := 47%N.

(** [str.split('/')]. *)
Fixpoint split_on (sep : N) (str : jstring) : list jstring :=
  match str with
  | [] => [[]]
  | c :: t =>
      if (c =? sep)%N then [] :: split_on sep t
      else match split_on sep t with
           | [] => [[c]]
           | w :: ws => (c :: w) :: ws
           end
  end.

(** An element of [refs.touch]: its identity and its [touchevents]
    attribute. *)
Record element := mk_elm { elm_id : nat; touchevents : option jstring }.

Section Bind.
(** [isSupportTouch]. *)
Variable isSupportTouch : bool.

Definition EVENT_TOUCHSTART : jstring :=
  if isSupportTouch then js "touchstart" else js "mousedown".
Definition EVENT_TOUCHMOVE : jstring :=
  if isSupportTouch then js "touchmove" else js "mousemove".
Definition EVENT_TOUCHEND : jstring :=
  if isSupportTouch then js "touchend" else js "mouseup".

(** The attribute test of [bindTouchEvents] and [unbindTouchEvents]:
    [!!elm.getAttribute('touchevents')]. *)
Definition has_touchevents (elm : element) : bool :=
  match touchevents elm with
  | Some str => negb (bool_decide (str = []))
  | None => false
  end.

(** The body [bindTouchEvents] runs for one element; [l1], [l2], [l3]
    are the three listener closures it creates. *)
Definition bindElement (l1 l2 l3 : nat) (elm : element) (w : world) : element * world :=
  if has_touchevents elm then (elm, w) else
  let '(w1, touchStartEventId) := add (elm_id elm) EVENT_TOUCHSTART l1 false w in
  let '(w2, touchMoveEventId) := add (elm_id elm) EVENT_TOUCHMOVE l2 false w1 in
  let '(w3, touchEndEventId) := add (elm_id elm) EVENT_TOUCHEND l3 false w2 in
  (mk_elm (elm_id elm)
     (Some (touchStartEventId ++ [SLASH] ++ touchMoveEventId ++ [SLASH] ++ touchEndEventId)),
   w3).

End Bind.

(** The body [unbindTouchEvents] runs for one element; the attribute is
    left in place. *)
Definition unbindElement (elm : element) (w : world) : world :=
  match touchevents elm with
  | Some str =>
      if bool_decide (str = []) then w
      else fold_left (fun w0 touchEventId => remove touchEventId w0) (split_on SLASH str) w
  | None => w
  end.

(** Every registered id is [t_j] for a [j] below [key]. *)
Definition registry_wf (w : world) : Prop :=
  map_Forall (fun id _ => id ∈ eventId <$> seq 0 (key w)) (events w).

(** No listener the DOM holds is the closure [l]. *)
Definition fresh_listener (w : world) (l : nat) : Prop :=
  Forall (fun y => listener y <> l) (dom w).

End Listeners.

(* ------------------------------------------------------------------ *)
(** ** Concrete inputs *)

Module Inputs.
Import Tiny.

(** The host object [{HEX: true, RGBA: false}]. *)
Definition hex_only (f : color_code) : bool :=
  match f with HEX => true | _ => false end.

Definition no_props : props := mk_props None None None.

Definition red : rgba := mk_rgba 255 0 0 1.

(** A picker showing red in RGBA, with [latestValidHue = 0]. *)
Definition st_red : tag_state :=
  mk_tag (mk_color RGBA (VRgba red)) default_selectable 0 (js "#000000") false no_props.

(** A picker showing rgb(255, 110, 110), of saturation 145/255. *)
Definition st_salmon : tag_state :=
  mk_tag (mk_color RGBA (VRgba (mk_rgba 255 110 110 1))) default_selectable 0
    (js "#000000") false no_props.

(** A picker showing [#ff0000] with only HEX selectable. *)
Definition st_hex_only : tag_state :=
  mk_tag (mk_color HEX (VStr (js "#ff0000"))) hex_only 0 (js "#000000") false no_props.

(** rgb(255, 254, 254): saturation 1/255, i.e. about 0.39 percent. *)
Definition st_pale : tag_state :=
  mk_tag (mk_color RGBA (VRgba (mk_rgba 255 254 254 1))) default_selectable 0
    (js "#000000") false no_props.

(** A picker whose host passes an explicit hsv of hue 0. *)
Definition st_hsv0 : tag_state :=
  mk_tag (mk_color HEX (VStr (js "#000000"))) default_selectable 0 (js "#000000") true
    (mk_props None None (Some (mk_hsv 0 0 0))).

(** A container 10.4 pixels wide and 10 high at the origin. *)
Definition rect_frac : rect := mk_rect 0 0 (52 # 5) 10.

Definition rect_200x100 : rect := mk_rect 0 0 200 100.

(** [this.color] at location 1 holds an rgba object at location 2. *)
Definition hs_rgba : Heap.heap_state :=
  Heap.mk_heap (<[1%positive := Heap.OColor RGBA (Heap.JRef 2%positive)]>
                  (<[2%positive := Heap.ORgba (mk_rgba 10 20 30 1)]> ∅))
    1%positive 3%positive (js "#000000").

End Inputs.

Module MoreInputs.

(** Props of an update to the hex colour [fff], without a [#]. *)
Definition props_fff : props :=
  mk_props (Some (mk_color HEX (VStr (js "fff")))) None None.

(** [Inputs.st_red] once the host passes back the hsv [hv] of a pointer
    event as [opts.hsv]. *)
Definition st_red_with_hsv (hv : hsv) : tag_state :=
  mk_tag (mk_color RGBA (VRgba Inputs.red)) default_selectable 0 (js "#000000") false
    (mk_props None None (Some hv)).

(** The host object [{HEX: false, RGBA: false}]. *)
Definition none_selectable (f : color_code) : bool := false.

(** A picker showing red in RGBA whose host made no format selectable. *)
Definition st_none_selectable : tag_state :=
  mk_tag (mk_color RGBA (VRgba Inputs.red)) none_selectable 0 (js "#000000") false
    Inputs.no_props.

(** A picker whose colour is in the HSV format. *)
Definition st_hsv_format : tag_state :=
  mk_tag (mk_color HSV (VHsv (mk_hsv 0 100 100))) default_selectable 0 (js "#000000")
    false Inputs.no_props.

(** [this.color] at location 1 is [{format: 'HEX', value: '#ff0000'}]. *)
Definition hs_hex : Heap.heap_state :=
  Heap.mk_heap (<[1%positive := Heap.OColor HEX (Heap.JStr (js "#ff0000"))]> ∅)
    1%positive 2%positive (js "#000000").

(** A tag whose only handler is [handleTap]. *)
Definition tag_has (n : jstring) : bool := bool_decide (n = js "handleTap").

Definition touch0 : Touch.touch_state := Touch.mk_touch 0 0 false.

(** An empty registry and an element not bound yet. *)
Definition world0 : Listeners.world := Listeners.mk_world ∅ 0 [].
Definition elm7 : Listeners.element := Listeners.mk_elm 7 None.

End MoreInputs.

(* ------------------------------------------------------------------ *)
(** ** Lemmas on the hex patterns *)

Lemma strip_sharp_replace (str : jstring) :
  strip_sharp (replace_fullwidth str) = replace_fullwidth (strip_sharp str).
Proof.
  destruct str as [|c t]; [reflexivity|].
  unfold strip_sharp, replace_fullwidth. simpl.
  destruct (N.eqb_spec c FULLWIDTH_SPACE) as [->|Hf]; [reflexivity|].
  destruct (N.eqb_spec c SHARP) as [->|Hs]; simpl; [reflexivity|].
  apply N.eqb_neq in Hf. rewrite Hf. reflexivity.
Qed.

Lemma forallb_hex_replace (t : jstring) :
  forallb is_hex_digit (replace_fullwidth t) = forallb is_hex_digit t.
Proof.
  induction t as [|c t IH]; [reflexivity|]. simpl. rewrite IH.
  destruct (N.eqb_spec c FULLWIDTH_SPACE) as [->|]; reflexivity.
Qed.

Lemma length_replace (t : jstring) : length (replace_fullwidth t) = length t.
Proof. apply length_map. Qed.

Lemma isTypingHex_replace (str : jstring) :
  isTypingHex (replace_fullwidth str) = isTypingHex str.
Proof.
  unfold isTypingHex. rewrite strip_sharp_replace, forallb_hex_replace, length_replace.
  reflexivity.
Qed.

Lemma isHex_replace (str : jstring) : isHex (replace_fullwidth str) = isHex str.
Proof.
  unfold isHex. rewrite strip_sharp_replace, forallb_hex_replace, length_replace.
  reflexivity.
Qed.

Lemma isHex_isTypingHex (str : jstring) : isHex str = true -> isTypingHex str = true.
Proof.
  unfold isHex, isTypingHex. intros H.
  apply andb_prop in H as [H1 H2]. rewrite H1. simpl.
  apply orb_prop in H2 as [H2|H2]; apply Nat.eqb_eq in H2; rewrite H2; reflexivity.
Qed.

Lemma isTypingHex_fullwidth (str : jstring) :
  In FULLWIDTH_SPACE str -> isTypingHex str = false.
Proof.
  intros Hin. unfold isTypingHex.
  assert (Hs : In FULLWIDTH_SPACE (strip_sharp str)).
  { destruct str as [|c t]; [destruct Hin|]. simpl.
    destruct (N.eqb_spec c SHARP) as [->|]; [|exact Hin].
    destruct Hin as [Hin|Hin]; [discriminate|exact Hin]. }
  assert (Hf : forallb is_hex_digit (strip_sharp str) = false).
  { induction (strip_sharp str) as [|c t IH]; [destruct Hs|].
    simpl. destruct Hs as [->|Hs]; [reflexivity|].
    rewrite (IH Hs). apply andb_false_r. }
  rewrite Hf. reflexivity.
Qed.

Lemma normalize_prev (raw : jstring) (prev : cvalue) :
  isTypingHex raw = false -> normalizeHexValue raw prev = prev.
Proof.
  intros H. unfold normalizeHexValue.
  assert (Hh : isHex (replace_fullwidth raw) = false).
  { destruct (isHex (replace_fullwidth raw)) eqn:E; [|reflexivity].
    apply isHex_isTypingHex in E. rewrite isTypingHex_replace in E. congruence. }
  rewrite Hh, isTypingHex_replace, H. reflexivity.
Qed.

Lemma replace_no_fullwidth (raw : jstring) :
  isTypingHex raw = true -> replace_fullwidth raw = raw.
Proof.
  intros H. destruct (in_dec N.eq_dec FULLWIDTH_SPACE raw) as [Hin|Hn].
  - rewrite (isTypingHex_fullwidth raw Hin) in H. discriminate.
  - unfold replace_fullwidth. rewrite <- (map_id raw) at 2. apply map_ext_in.
    intros c Hc. destruct (N.eqb_spec c FULLWIDTH_SPACE) as [->|]; [contradiction|reflexivity].
Qed.

(* ------------------------------------------------------------------ *)
(** ** Hex input normalisation *)

(** C8 (counterexample): full-width spaces are not stripped. The input
    [ff<U+3000>00] is rejected for the previous value, while the same
    input with its full-width space removed, [ff00], is kept. *)
Lemma normalizeHexValue_fullwidth_not_stripped :
  ~ (forall (raw : jstring) (prev : cvalue),
        normalizeHexValue raw prev
        = normalizeHexValue (filter (fun c => negb (c =? FULLWIDTH_SPACE)%N) raw) prev).
Proof.
  intros H.
  specialize (H (js "ff" ++ [FULLWIDTH_SPACE] ++ js "00") (VStr (js "#123456"))).
  vm_compute in H. discriminate H.
Qed.

(** C8 (amended): [normalizeHexValue] turns full-width spaces into ASCII
    spaces, so an input containing one yields the previous value; the
    empty input gives the empty string; a committed hex code is returned
    with a [#] prefixed when it has none; an input failing the typing-hex
    pattern yields the previous value. *)
Theorem normalizeHexValue_spec :
  (forall (raw : jstring) (prev : cvalue),
      In FULLWIDTH_SPACE raw -> normalizeHexValue raw prev = prev) /\
  (forall prev : cvalue, normalizeHexValue [] prev = VStr []) /\
  (forall (t : jstring) (prev : cvalue),
      isHex (SHARP :: t) = true -> normalizeHexValue (SHARP :: t) prev = VStr (SHARP :: t)) /\
  (forall (raw : jstring) (prev : cvalue),
      isHex raw = true -> hd_error raw <> Some SHARP ->
      normalizeHexValue raw prev = VStr (SHARP :: raw)) /\
  (forall (raw : jstring) (prev : cvalue),
      isTypingHex raw = false -> normalizeHexValue raw prev = prev).
Proof.
  split; [|split; [|split; [|split]]].
  - intros raw prev Hin. apply normalize_prev, isTypingHex_fullwidth, Hin.
  - reflexivity.
  - intros t prev Hh. unfold normalizeHexValue.
    rewrite replace_no_fullwidth by (apply isHex_isTypingHex, Hh).
    rewrite Hh. cbn [concatenatePoundKey]. rewrite N.eqb_refl.
    rewrite (isHex_isTypingHex _ Hh). reflexivity.
  - intros raw prev Hh Hd. unfold normalizeHexValue.
    rewrite replace_no_fullwidth by (apply isHex_isTypingHex, Hh).
    rewrite Hh.
    assert (Hc : concatenatePoundKey raw = SHARP :: raw).
    { destruct raw as [|c t]; [reflexivity|]. simpl in Hd |- *.
      destruct (N.eqb_spec c SHARP) as [->|]; [congruence|reflexivity]. }
    rewrite Hc.
    assert (Ht : isTypingHex (SHARP :: raw) = isTypingHex raw).
    { unfold isTypingHex. simpl. destruct raw as [|c t]; [reflexivity|].
      simpl in Hd. destruct (N.eqb_spec c SHARP) as [->|Hn]; [congruence|].
      unfold strip_sharp. apply N.eqb_neq in Hn. rewrite Hn. reflexivity. }
    rewrite Ht, (isHex_isTypingHex _ Hh). reflexivity.
  - apply normalize_prev.
Qed.

(* ------------------------------------------------------------------ *)
(** ** Alpha percentage *)

(** C10: [getAlphaValue] is exactly 100 for a colour that is not RGBA,
    and the stored alpha times 100 for an RGBA colour. *)
Theorem getAlphaValue_spec :
  (forall st : tag_state, format (this_color st) <> RGBA -> getAlphaValue st = Some 100) /\
  (forall (st : tag_state) (c : rgba),
      this_color st = mk_color RGBA (VRgba c) -> getAlphaValue st = Some (a c * 100)).
Proof.
  split.
  - intros st Hf. unfold getAlphaValue.
    destruct (format (this_color st)); [reflexivity|congruence|reflexivity].
  - intros st c Hc. unfold getAlphaValue. rewrite Hc. reflexivity.
Qed.

(* ------------------------------------------------------------------ *)
(** ** Selectable formats on init and update *)

Lemma init_widens (p : props) :
  selectableColorCode (init p) (format (this_color (init p))) = true.
Proof.
  unfold init. simpl.
  generalize (match opts_selectablecolorcode p with Some sel => sel
              | None => default_selectable end) as sel.
  generalize (match opts_color p with Some c => c | None => default_color end) as c.
  intros c sel. simpl.
  destruct (sel (format c)) eqn:E; simpl; [exact E|].
  unfold set_selectable. destruct (format c); reflexivity.
Qed.

(** C1 (code bug): on update with the colour [rgba(0, 0, 0, 1)] and the
    fresh host object [{HEX: true, RGBA: false}], the selectable formats
    after the update do not contain RGBA, the current format; [init]
    with the same props does widen them. *)
Theorem on_update_does_not_widen :
  let p := mk_props (Some (mk_color RGBA (VRgba (mk_rgba 0 0 0 1))))
             (Some Inputs.hex_only) None in
  (exists st', on_update p (init Inputs.no_props) = Some st' /\
     format (this_color st') = RGBA /\ selectableColorCode st' RGBA = false) /\
  selectableColorCode (init p) RGBA = true.
Proof.
  simpl. split.
  - eexists. split; [reflexivity|]. split; reflexivity.
  - reflexivity.
Qed.

(* ------------------------------------------------------------------ *)
(** ** Format cycling *)

(** C2: when the current format is in [order] and selectable, the
    [do ... while] loop stops within [length order] iterations; with
    [{HEX: true, RGBA: false}] and a HEX colour, the tap emits a HEX
    colour whose value is [convertColor] of the current one to HEX. *)
Theorem handleColorChangeButtonTap_terminates `{TC : TinyColor} (st : tag_state) :
  In (format (this_color st)) order ->
  selectableColorCode st (format (this_color st)) = true ->
  handleColorChangeButtonTap (length order) st <> OutOfFuel /\
  (forall str : jstring,
      this_color st = mk_color HEX (VStr str) ->
      selectableColorCode st RGBA = false ->
      exists v', convertColor (lastValidColor st) HEX (VStr str) HEX = Some v' /\
                 handleColorChangeButtonTap (length order) st = Emit (mk_color HEX v')).
Proof.
  intros Hin Hsel. split.
  - unfold handleColorChangeButtonTap.
    destruct (this_color st) as [f x]; simpl in *.
    destruct Hin as [<-|[<-|[]]]; simpl;
    destruct (selectableColorCode st HEX) eqn:EH;
    destruct (selectableColorCode st RGBA) eqn:ER; simpl; try congruence;
    match goal with
    | |- context [convertColor ?l ?c ?x ?t] => destruct (convertColor l c x t)
    end; discriminate.
  - intros str Hc Hr. rewrite Hc in Hsel. simpl in Hsel.
    unfold handleColorChangeButtonTap. rewrite Hc. simpl.
    rewrite Hr, Hsel. simpl. eexists. split; reflexivity.
Qed.

Lemma handleColorChangeButtonTap_terminates_witness :
  In (format (this_color Inputs.st_hex_only)) order /\
  selectableColorCode Inputs.st_hex_only (format (this_color Inputs.st_hex_only)) = true /\
  @handleColorChangeButtonTap Tiny.tiny (length order) Inputs.st_hex_only <> OutOfFuel.
Proof.
  split; [simpl; auto|]. split; [reflexivity|].
  apply (handleColorChangeButtonTap_terminates (TC := Tiny.tiny) Inputs.st_hex_only);
    [simpl; auto|reflexivity].
Defined.

(* ------------------------------------------------------------------ *)
(** ** Conversion fallback *)

(** C7: a HEX source that is not a 3- or 6-digit hex code is replaced by
    [lastValidColor], the result being the conversion of
    [lastValidColor]; and a conversion raises nothing as long as a HEX
    source is a string (an rgba or hsv source never raises). *)
Theorem convertColor_hex_fallback `{TC : TinyColor} :
  (forall (lastValid str : jstring) (tgt : color_code),
      isHex str = false ->
      convertColor lastValid HEX (VStr str) tgt
      = Some (export tgt (tinycolor_of (VStr lastValid)))) /\
  (forall (lastValid : jstring) (code : color_code) (val : cvalue) (tgt : color_code),
      (code = HEX -> exists str, val = VStr str) ->
      exists out, convertColor lastValid code val tgt = Some out).
Proof.
  split.
  - intros lastValid str tgt Hh. unfold convertColor, convert_source.
    rewrite Hh. reflexivity.
  - intros lastValid code val tgt Hs. unfold convertColor, convert_source.
    destruct code.
    + destruct (Hs eq_refl) as [str ->]. eexists. reflexivity.
    + eexists. reflexivity.
    + destruct val; eexists; reflexivity.
Qed.

(* ------------------------------------------------------------------ *)
(** ** Rounding in getHsv *)

Lemma round_half_even_err (q : Q) : Qabs (inject_Z (round_half_even q) - q) <= 1 # 2.
Proof.
  unfold round_half_even.
  pose proof (Qfloor_le q) as H1. pose proof (Qlt_floor q) as H2.
  rewrite inject_Z_plus in H2. change (inject_Z 1) with 1 in H2. set (f := Qfloor q) in *.
  assert (Hf1 : inject_Z (f + 1) == inject_Z f + 1) by (rewrite inject_Z_plus; reflexivity).
  destruct (Qcompare (q - inject_Z f) (1 # 2)) eqn:C.
  - apply Qeq_alt in C.
    destruct (Z.even f); [|rewrite Hf1];
      apply Qabs_case; intros; lra.
  - apply Qlt_alt in C. apply Qabs_case; intros; lra.
  - apply Qgt_alt in C. rewrite Hf1. apply Qabs_case; intros; lra.
Qed.

Lemma Qabs_div (x : Q) : Qabs x == inject_Z (Z.abs (Qnum x)) / inject_Z (Zpos (Qden x)).
Proof. destruct x as [n d]. unfold Qabs. cbn [Qnum Qden]. apply Qmake_Qdiv. Qed.

Lemma fl_log2_le (x : Q) : Qnum x <> 0%Z -> 2 ^ fl_log2 x <= Qabs x.
Proof.
  intros Hn. unfold fl_log2.
  destruct (Qle_bool _ _) eqn:E; [apply Qle_bool_iff; exact E|]. clear E.
  rewrite Qabs_div.
  set (m := Z.abs (Qnum x)). set (d := Zpos (Qden x)).
  assert (Hm : (0 < m)%Z) by (unfold m; lia).
  assert (Hd : (0 < d)%Z) by (unfold d; lia).
  pose proof (Z.log2_spec m Hm) as [Hm1 _].
  pose proof (Z.log2_spec d Hd) as [_ Hd2].
  pose proof (Z.log2_nonneg m). pose proof (Z.log2_nonneg d).
  set (lm := Z.log2 m) in *. set (ld := Z.log2 d) in *.
  replace (lm - ld - 1)%Z with (lm - Z.succ ld)%Z by lia.
  rewrite Qpower_minus by discriminate.
  assert (E1 : 2 ^ lm == inject_Z (2 ^ lm)%Z) by (symmetry; apply Zpower_Qpower; lia).
  assert (E2 : 2 ^ Z.succ ld == inject_Z (2 ^ Z.succ ld)%Z)
    by (symmetry; apply Zpower_Qpower; lia).
  rewrite E1, E2.
  assert (HA : (0 < 2 ^ lm)%Z) by (apply Z.pow_pos_nonneg; lia).
  assert (HB : (0 < 2 ^ Z.succ ld)%Z) by (apply Z.pow_pos_nonneg; lia).
  set (A := (2 ^ lm)%Z) in *. set (B := (2 ^ Z.succ ld)%Z) in *.
  apply Qle_shift_div_r; [change 0 with (inject_Z 0); rewrite <- Zlt_Qlt; exact HB|].
  assert (Hd' : 0 < inject_Z d) by (change 0 with (inject_Z 0); rewrite <- Zlt_Qlt; exact Hd).
  setoid_replace (inject_Z m / inject_Z d * inject_Z B) with (inject_Z (m * B) / inject_Z d)
    using relation Qeq
    by (rewrite inject_Z_mult; field; lra).
  apply Qle_shift_div_l; [exact Hd'|].
  rewrite <- inject_Z_mult. rewrite <- Zle_Qle. nia.
Qed.

Lemma fl_err (x : Q) : Qabs x < 2 ^ 7 -> Qabs (fl x - x) <= 2 ^ (-47).
Proof.
  intros Hx.
  assert (Hb : 0 <= 2 ^ (-47)) by (apply Qpower_0_le; lra).
  assert (H0 : Qabs (x - x) <= 2 ^ (-47)).
  { setoid_replace (x - x) with 0 using relation Qeq by ring. exact Hb. }
  unfold fl. destruct (Z.eqb_spec (Qnum x) 0) as [Hz|Hn]; [exact H0|].
  pose proof (fl_log2_le x Hn) as HE.
  set (E := fl_log2 x) in *. set (e := Z.max (E - 52) (-1074)).
  set (sg := if Z.ltb (Qnum x) 0 then -1 else 1).
  set (z := round_half_even (Qabs x / 2 ^ e)).
  destruct (Qeq_bool _ x); [exact H0|].
  assert (Hp : 0 < 2 ^ e) by (apply Qpower_0_lt; lra).
  assert (Hnz : ~ 2 ^ e == 0) by (intros H; rewrite H in Hp; apply (Qlt_irrefl 0); exact Hp).
  assert (Hsg : Qabs sg == 1 /\ x == sg * Qabs x).
  { unfold sg. destruct (Z.ltb_spec (Qnum x) 0) as [Hl|Hl].
    - split; [reflexivity|]. rewrite Qabs_neg; [ring|].
      destruct x as [n d]. unfold Qle. simpl in *. lia.
    - split; [reflexivity|]. rewrite Qabs_pos; [ring|].
      destruct x as [n d]. unfold Qle. simpl in *. lia. }
  assert (Heq : sg * inject_Z z * 2 ^ e - x
                == sg * (2 ^ e * (inject_Z z - Qabs x / 2 ^ e))).
  { rewrite (proj2 Hsg) at 1. field. exact Hnz. }
  rewrite Heq, Qabs_Qmult, Qabs_Qmult, (proj1 Hsg), (Qabs_pos (2 ^ e)) by lra.
  pose proof (round_half_even_err (Qabs x / 2 ^ e)) as Hr. fold z in Hr.
  assert (HE7 : (E < 7)%Z).
  { apply (Qpower_lt_compat_l_inv 2); [|lra]. eapply Qle_lt_trans; [exact HE|exact Hx]. }
  assert (He : 2 ^ e <= 2 ^ (-46)).
  { apply Qpower_le_compat_l; [unfold e; lia|lra]. }
  assert (Hm : 2 ^ e * Qabs (inject_Z z - Qabs x / 2 ^ e) <= 2 ^ e * (1 # 2)).
  { apply Qmult_le_l; assumption. }
  assert (Hm2 : 2 ^ e * (1 # 2) <= 2 ^ (-46) * (1 # 2)).
  { apply Qmult_le_r; [reflexivity|exact He]. }
  assert (H47 : 2 ^ (-46) * (1 # 2) == 2 ^ (-47)) by (vm_compute; reflexivity).
  lra.
Qed.


Lemma percent_ok_all : forallb percent_ok (map Z.of_nat (seq 0 101)) = true.
Proof. vm_compute. reflexivity. Qed.

Lemma percent_roundtrip (k : Z) : (0 <= k <= 100)%Z ->
  Qabs (fl (fl (inject_Z k / 100) * 100) - inject_Z k) <= 2 ^ (-47) /\
  js_round (fl (fl (inject_Z k / 100) * 100)) = inject_Z k.
Proof.
  intros Hk.
  assert (Hin : In k (map Z.of_nat (seq 0 101))).
  { apply in_map_iff. exists (Z.to_nat k). split; [lia|]. apply in_seq. lia. }
  pose proof (proj1 (forallb_forall _ _) percent_ok_all k Hin) as H.
  unfold percent_ok in H. apply andb_true_iff in H as [H1 H2].
  split; [apply Qle_bool_iff; exact H1|].
  apply Qeq_bool_iff in H2. unfold js_round in *.
  apply (proj1 (inject_Z_injective _ _)) in H2. rewrite H2. reflexivity.
Qed.

Lemma percent_range (q : Q) : 0 <= q <= 1 ->
  (0 <= Qfloor (fl (q * 100) + (1 # 2)) <= 100)%Z.
Proof.
  intros Hq.
  assert (Ha : Qabs (q * 100) < 2 ^ 7).
  { rewrite Qabs_pos by lra. assert (H7 : 2 ^ 7 == 128) by reflexivity. lra. }
  pose proof (fl_err _ Ha) as He.
  assert (Hc : 2 ^ (-47) <= 1 # 4) by (vm_compute; discriminate).
  assert (Hy : - (1 # 4) <= fl (q * 100) - q * 100 <= 1 # 4).
  { revert He. apply Qabs_case; intros; lra. }
  set (y := fl (q * 100)) in *.
  pose proof (Qfloor_le (y + (1 # 2))) as F1.
  pose proof (Qlt_floor (y + (1 # 2))) as F2.
  rewrite inject_Z_plus in F2. change (inject_Z 1) with 1 in F2.
  set (K := Qfloor (y + (1 # 2))) in *.
  split.
  - assert (H : inject_Z (-1) < inject_Z K) by (change (inject_Z (-1)) with (-1); lra).
    rewrite <- Zlt_Qlt in H. lia.
  - assert (H : inject_Z K < inject_Z 101) by (change (inject_Z 101) with 101; lra).
    rewrite <- Zlt_Qlt in H. lia.
Qed.

(** C5 (counterexample): for rgb(255, 254, 254), whose saturation is
    1/255 (0.39 percent), [getHsv] gives saturation 0, not 0.39. *)
Lemma getHsv_not_hundredths :
  ~ (forall (st : tag_state) (hv out : hsv),
        opts_hsv (opts st) = None ->
        @convertColor Tiny.tiny (lastValidColor st) (format (this_color st))
          (value (this_color st)) HSV = Some (VHsv hv) ->
        @getHsv Tiny.tiny st = Some out ->
        s out == js_round (s hv * 100 * 100) / 100).
Proof.
  intros H.
  specialize (H Inputs.st_pale
    (@toHsv Tiny.tiny (@tinycolor_of Tiny.tiny (VRgba (mk_rgba 255 254 254 1))))
    _ eq_refl eq_refl eq_refl).
  apply Qeq_bool_iff in H. vm_compute in H. discriminate H.
Qed.

(** C5 (amended): without a host hsv, and for [s], [v] in [0, 1] as the
    library gives them, [getHsv] rounds [h] to the nearest integer degree;
    [s] (likewise [v]) is the double [(k / 100) * 100] for the integer
    percentage [k = Math.round(s * 100)] in [0, 100]: within [2^-47] of [k]
    and rounding back to [k], so the precision is the integer percent. *)
Theorem getHsv_rounding `{TC : TinyColor} (st : tag_state) (hv : hsv) :
  opts_hsv (opts st) = None ->
  convertColor (lastValidColor st) (format (this_color st)) (value (this_color st)) HSV
    = Some (VHsv hv) ->
  0 <= s hv <= 1 -> 0 <= v hv <= 1 ->
  exists out ks kv, getHsv st = Some out /\
    h out = js_round (h hv) /\
    ks = js_round (fl (s hv * 100)) /\ kv = js_round (fl (v hv * 100)) /\
    0 <= ks <= 100 /\ 0 <= kv <= 100 /\
    s out = fl (fl (ks / 100) * 100) /\ v out = fl (fl (kv / 100) * 100) /\
    Qabs (s out - ks) <= 2 ^ (-47) /\ Qabs (v out - kv) <= 2 ^ (-47) /\
    js_round (s out) = ks /\ js_round (v out) = kv.
Proof.
  intros Ho Hc Hs Hv. unfold getHsv. rewrite Ho, Hc. cbn [mbind option_bind as_hsv].
  pose proof (percent_range _ Hs) as Rs. pose proof (percent_range _ Hv) as Rv.
  pose proof (percent_roundtrip _ Rs) as [Es Js].
  pose proof (percent_roundtrip _ Rv) as [Ev Jv].
  assert (R : forall K, (0 <= K <= 100)%Z -> 0 <= inject_Z K <= 100).
  { intros K HK. split; [change 0 with (inject_Z 0)|change 100 with (inject_Z 100)];
      rewrite <- Zle_Qle; lia. }
  do 3 eexists. split; [reflexivity|]. cbn [h s v].
  split; [reflexivity|]. split; [reflexivity|]. split; [reflexivity|].
  split; [unfold js_round; apply R; exact Rs|].
  split; [unfold js_round; apply R; exact Rv|].
  split; [reflexivity|]. split; [reflexivity|].
  repeat split; assumption.
Qed.

(** [rgb(255, 110, 110)]: saturation [145/255], so [k = 57], and [getHsv]
    gives the double [56.99999999999999], not [57]. *)
Lemma getHsv_rounding_witness :
  let hv := @toHsv Tiny.tiny (@tinycolor_of Tiny.tiny (VRgba (mk_rgba 255 110 110 1))) in
  opts_hsv (opts Inputs.st_salmon) = None /\
  @convertColor Tiny.tiny (lastValidColor Inputs.st_salmon) RGBA
    (VRgba (mk_rgba 255 110 110 1)) HSV = Some (VHsv hv) /\
  0 <= s hv <= 1 /\ 0 <= v hv <= 1 /\
  (exists out ks kv, @getHsv Tiny.tiny Inputs.st_salmon = Some out /\
    h out = js_round (h hv) /\
    ks = js_round (fl (s hv * 100)) /\ kv = js_round (fl (v hv * 100)) /\
    0 <= ks <= 100 /\ 0 <= kv <= 100 /\
    s out = fl (fl (ks / 100) * 100) /\ v out = fl (fl (kv / 100) * 100) /\
    Qabs (s out - ks) <= 2 ^ (-47) /\ Qabs (v out - kv) <= 2 ^ (-47) /\
    js_round (s out) = ks /\ js_round (v out) = kv) /\
  js_round (fl (s hv * 100)) = 57 /\
  (exists out, @getHsv Tiny.tiny Inputs.st_salmon = Some out /\
     s out == 8022036836253695 # 140737488355328 /\ s out < 57).
Proof.
  intros hv. split; [reflexivity|]. split; [reflexivity|].
  split; [vm_compute; split; discriminate|]. split; [vm_compute; split; discriminate|].
  split.
  - apply (getHsv_rounding (TC := Tiny.tiny) Inputs.st_salmon hv);
      [reflexivity|reflexivity|vm_compute; split; discriminate|vm_compute; split; discriminate].
  - split; [vm_compute; reflexivity|].
    eexists. split; [reflexivity|]. split; vm_compute; reflexivity.
Defined.

(* ------------------------------------------------------------------ *)
(** ** latestValidHue *)

Lemma handleHueSliderChange_state `{TC : TinyColor} (hue : Q) (st st' : tag_state)
    (e : color * hsv) :
  handleHueSliderChange hue st = Some (st', e) -> st' = st.
Proof.
  unfold handleHueSliderChange.
  destruct (convertColor _ _ _ HSV) as [x|]; simpl; [|discriminate].
  destruct (as_hsv x); simpl; [|discriminate].
  congruence.
Qed.

(** The pointer handlers do record the hue of a chromatic result. *)
Lemma handleCatcherMouseMove_records `{TC : TinyColor} (rc : rect) (px py : Q)
    (st st' : tag_state) (c : color) (hv : hsv) :
  handleCatcherMouseMove rc px py st = Some (st', Some (c, hv)) ->
  isMonochrome (lastValidColor st) (format c) (value c) = Some false ->
  latestValidHue st' = h hv.
Proof.
  unfold handleCatcherMouseMove.
  destruct (isCatcherActive st); simpl; [|discriminate].
  destruct (getColorObject st rc px py) as [hv0|]; simpl; [|discriminate].
  match goal with
  | |- context [isMonochrome ?l ?f ?cv] => destruct (isMonochrome l f cv) as [mono|] eqn:Em
  end; simpl; [|discriminate].
  intros [= <- <- <-]. simpl. rewrite Em. intros [= ->]. reflexivity.
Qed.

(** C4 (code bug): moving the hue slider to 120 on red gives the
    chromatic green (not monochrome, hue 120), but [latestValidHue] stays
    0; the hue slider never writes it. *)
Theorem handleHueSliderChange_keeps_latestValidHue :
  (exists st' c hv,
      @handleHueSliderChange Tiny.tiny 120 Inputs.st_red = Some (st', (c, hv)) /\
      c = mk_color RGBA (VRgba (mk_rgba 0 255 0 1)) /\
      @isMonochrome Tiny.tiny (lastValidColor st') (format c) (value c) = Some false /\
      h hv = 120 /\ latestValidHue st' = 0) /\
  (forall `{TC : TinyColor} (hue : Q) (st st' : tag_state) (e : color * hsv),
      handleHueSliderChange hue st = Some (st', e) ->
      latestValidHue st' = latestValidHue st).
Proof.
  split.
  - exists Inputs.st_red, (mk_color RGBA (VRgba (mk_rgba 0 255 0 1))), (mk_hsv 120 100 100).
    split; [vm_compute; reflexivity|]. split; [reflexivity|].
    split; [vm_compute; reflexivity|]. split; reflexivity.
  - intros TC hue st st' e He. apply handleHueSliderChange_state in He. now subst.
Qed.

(* ------------------------------------------------------------------ *)
(** ** Writing through [this.color] *)

(** C6 (code bug): typing 200 in the red field, or moving the alpha slider
    to 50, writes into the rgba object [this.color] holds: the stored
    colour changes before the host supplies a new one. *)
Theorem rgba_handlers_write_through :
  Heap.deref_color Inputs.hs_rgba = Some (mk_color RGBA (VRgba (mk_rgba 10 20 30 1))) /\
  (exists hs' l,
      Heap.handleInputRgbaRedInput (Heap.INum 200) Inputs.hs_rgba = Some (hs', l) /\
      Heap.deref_color hs' = Some (mk_color RGBA (VRgba (mk_rgba 200 20 30 1)))) /\
  (exists hs' l,
      @Heap.handleAlphaSliderChange Tiny.tiny 50 Inputs.hs_rgba = Some (hs', l) /\
      l = Heap.this_color_ref Inputs.hs_rgba /\
      Heap.deref_color hs' = Some (mk_color RGBA (VRgba (mk_rgba 10 20 30 (50 / 100))))).
Proof.
  split; [vm_compute; reflexivity|]. split.
  - vm_compute. do 2 eexists. split; [reflexivity|]. vm_compute. reflexivity.
  - vm_compute. do 2 eexists. split; [reflexivity|]. split; vm_compute; reflexivity.
Qed.

(* ------------------------------------------------------------------ *)
(** ** Lemmas on rounding and clamping *)

Lemma Qlt_bool_true (x y : Q) : Qlt_bool x y = true <-> x < y.
Proof.
  unfold Qlt_bool. rewrite negb_true_iff. split; intros H.
  - apply Qnot_le_lt. intros H'. apply Qle_bool_iff in H'. congruence.
  - destruct (Qle_bool y x) eqn:E; [|reflexivity].
    apply Qle_bool_iff in E. exfalso. exact (Qlt_not_le _ _ H E).
Qed.

Lemma Qlt_bool_false (x y : Q) : Qlt_bool x y = false <-> y <= x.
Proof.
  unfold Qlt_bool. rewrite negb_false_iff. apply Qle_bool_iff.
Qed.

Lemma js_round_shift (l x : Q) : js_round (l + x - l) = js_round x.
Proof. unfold js_round. f_equal. apply Qfloor_comp. ring. Qed.

Lemma js_round_zero (l : Q) : js_round (l - l) = 0.
Proof.
  unfold js_round. rewrite (Qfloor_comp (l - l + (1 # 2)) (1 # 2)) by ring.
  reflexivity.
Qed.

Lemma js_round_nonneg (q : Q) : 0 <= q -> 0 <= js_round q.
Proof.
  intros Hq. unfold js_round. change 0 with (inject_Z 0). rewrite <- Zle_Qle.
  change 0%Z with (Qfloor 0). apply Qfloor_resp_le. lra.
Qed.

Lemma js_round_nonpos (q : Q) : q < 0 -> (Qfloor (q + (1 # 2)) <= 0)%Z.
Proof.
  intros Hq. change 0%Z with (Qfloor (1 # 2)). apply Qfloor_resp_le. lra.
Qed.

Lemma js_round_range (q : Q) : 0 <= q <= 100 -> 0 <= js_round q <= 100.
Proof.
  intros [H0 H1]. split; [now apply js_round_nonneg|].
  unfold js_round. change 100 with (inject_Z 100). rewrite <- Zle_Qle.
  change 100%Z with (Qfloor (201 # 2)). apply Qfloor_resp_le. lra.
Qed.

Lemma js_round_above (k : Z) (x : Q) : inject_Z k < x -> (k <= Qfloor (x + (1 # 2)))%Z.
Proof.
  intros H. rewrite <- (Qfloor_Z k) at 1. apply Qfloor_resp_le. lra.
Qed.

Lemma js_round_int (k : Z) : js_round (inject_Z k) = inject_Z k.
Proof.
  unfold js_round. f_equal.
  pose proof (Qfloor_le (inject_Z k + (1 # 2))) as H1.
  assert (H4 : (k <= Qfloor (inject_Z k + (1 # 2)))%Z).
  { rewrite <- (Qfloor_Z k) at 1. apply Qfloor_resp_le. lra. }
  assert (H5 : (Qfloor (inject_Z k + (1 # 2)) < k + 1)%Z).
  { rewrite Zlt_Qlt. rewrite inject_Z_plus. change (inject_Z 1) with 1. lra. }
  lia.
Qed.

Lemma ratio_range (x w : Q) : 0 < w -> 0 <= x <= w -> 0 <= x / w * 100 <= 100.
Proof.
  intros Hw [H0 H1].
  assert (0 <= x / w) by (apply Qle_shift_div_l; [exact Hw|lra]).
  assert (x / w <= 1) by (apply Qle_shift_div_r; [exact Hw|lra]).
  lra.
Qed.

Lemma clamp_x_range (rc : rect) (tx : Q) :
  0 <= width rc -> 0 <= clamp_x rc tx <= width rc.
Proof.
  intros Hw. unfold clamp_x.
  destruct (Qlt_bool (width rc) (js_round (tx - left rc))) eqn:E1.
  - apply Qlt_bool_true in E1.
    destruct (Qlt_bool (width rc) 0) eqn:E2.
    + apply Qlt_bool_true in E2. lra.
    + split; lra.
  - apply Qlt_bool_false in E1.
    destruct (Qlt_bool (js_round (tx - left rc)) 0) eqn:E2.
    + lra.
    + apply Qlt_bool_false in E2. split; lra.
Qed.

Lemma clamp_y_range (rc : rect) (ty : Q) :
  0 <= height rc -> 0 <= ty - top rc -> 0 <= clamp_y rc ty <= height rc.
Proof.
  intros Hh Hy. pose proof (js_round_nonneg _ Hy) as Hr. unfold clamp_y.
  destruct (Qlt_bool (height rc) (js_round (ty - top rc))) eqn:E1.
  - destruct (Qlt_bool (height rc) 0) eqn:E2.
    + apply Qlt_bool_true in E2. lra.
    + split; lra.
  - apply Qlt_bool_false in E1.
    destruct (Qlt_bool (js_round (ty - top rc)) 0) eqn:E2.
    + apply Qlt_bool_true in E2. lra.
    + split; lra.
Qed.

Lemma clamp_x_left (rc : rect) (x : Q) :
  0 <= width rc -> x < 0 -> clamp_x rc (left rc + x) = clamp_x rc (left rc).
Proof.
  intros Hw Hx. unfold clamp_x. rewrite js_round_shift, js_round_zero.
  assert (Hz := js_round_nonpos x Hx).
  assert (E1 : Qlt_bool (width rc) (js_round x) = false).
  { apply Qlt_bool_false. unfold js_round.
    apply Qle_trans with 0; [|exact Hw].
    change 0 with (inject_Z 0). rewrite <- Zle_Qle. exact Hz. }
  assert (E0 : Qlt_bool (width rc) 0 = false) by (apply Qlt_bool_false; exact Hw).
  rewrite E1, E0.
  destruct (Z.lt_ge_cases (Qfloor (x + (1 # 2))) 0) as [Hn|Hp].
  2: { assert (Heq : Qfloor (x + (1 # 2)) = 0%Z) by lia.
       unfold js_round. rewrite Heq. reflexivity. }
  assert (E2 : Qlt_bool (js_round x) 0 = true).
  { apply Qlt_bool_true. unfold js_round. change 0 with (inject_Z 0).
    rewrite <- Zlt_Qlt. exact Hn. }
  rewrite E2. reflexivity.
Qed.

Lemma clamp_x_right (rc : rect) (k : Z) (x : Q) :
  width rc = inject_Z k -> 0 <= width rc -> width rc < x ->
  clamp_x rc (left rc + x) = clamp_x rc (left rc + width rc).
Proof.
  intros Hk Hw Hx. unfold clamp_x. rewrite !js_round_shift.
  assert (Hb : js_round (width rc) = width rc) by (rewrite Hk; apply js_round_int).
  rewrite Hb.
  assert (E0 : Qlt_bool (width rc) (width rc) = false)
    by (apply Qlt_bool_false; apply Qle_refl).
  rewrite E0.
  assert (Ew : Qlt_bool (width rc) 0 = false) by (apply Qlt_bool_false; exact Hw).
  rewrite Ew.
  rewrite Hk in Hx. assert (Hz := js_round_above k x Hx).
  destruct (Z.lt_ge_cases k (Qfloor (x + (1 # 2)))) as [Hlt|Hle].
  2: { assert (Heq : Qfloor (x + (1 # 2)) = k) by lia.
       unfold js_round. rewrite Heq, <- Hk, E0, Ew. reflexivity. }
  assert (E1 : Qlt_bool (width rc) (js_round x) = true).
  { apply Qlt_bool_true. rewrite Hk. unfold js_round. rewrite <- Zlt_Qlt. exact Hlt. }
  rewrite E1, Ew. reflexivity.
Qed.

(* ------------------------------------------------------------------ *)
(** ** The vertical clamp *)

(** C3 (counterexample): a pointer exactly on the top edge keeps
    [y = 0]; it is not raised to 0.1. *)
Lemma clamp_y_top_edge_not_raised :
  ~ (forall (rc : rect) (ty : Q), 0 < height rc -> 1 # 10 <= clamp_y rc ty).
Proof.
  intros H. specialize (H Inputs.rect_200x100 0 eq_refl).
  apply Qle_bool_iff in H. vm_compute in H. discriminate H.
Qed.

(** C3 (amended): [getColorObject] rounds [y = pointerY - rect.top] to
    an integer, lowers it to [rect.height] when above it, and raises it
    to 0.1 only when it is negative; a pointer on the top edge keeps
    [y = 0]. *)
Theorem clamp_y_spec (rc : rect) :
  0 <= height rc ->
  (forall ty : Q, height rc < js_round (ty - top rc) -> clamp_y rc ty = height rc) /\
  (forall ty : Q, js_round (ty - top rc) < 0 -> clamp_y rc ty = 1 # 10) /\
  (forall ty : Q, 0 <= js_round (ty - top rc) <= height rc ->
     clamp_y rc ty = js_round (ty - top rc)) /\
  clamp_y rc (top rc) = 0.
Proof.
  intros Hh. unfold clamp_y.
  assert (Eh : Qlt_bool (height rc) 0 = false) by (apply Qlt_bool_false; exact Hh).
  split; [|split; [|split]].
  - intros ty Hy. apply Qlt_bool_true in Hy. rewrite Hy, Eh. reflexivity.
  - intros ty Hy.
    assert (E1 : Qlt_bool (height rc) (js_round (ty - top rc)) = false)
      by (apply Qlt_bool_false; lra).
    apply Qlt_bool_true in Hy. rewrite E1, Hy. reflexivity.
  - intros ty [H0 H1].
    apply Qlt_bool_false in H0, H1. rewrite H1, H0. reflexivity.
  - rewrite js_round_zero.
    assert (E1 : Qlt_bool (height rc) 0 = false) by (apply Qlt_bool_false; exact Hh).
    rewrite E1. reflexivity.
Qed.

Lemma clamp_y_spec_witness :
  0 <= height Inputs.rect_200x100 /\ clamp_y Inputs.rect_200x100 (top Inputs.rect_200x100) = 0.
Proof.
  split; [vm_compute; discriminate|].
  apply (clamp_y_spec Inputs.rect_200x100); vm_compute; discriminate.
Defined.

(* ------------------------------------------------------------------ *)
(** ** Pointer to colour *)

(** C9 (counterexample): in a container 10.4 pixels wide, a pointer at
    x = 10.6 gives saturation 100, while one at the boundary x = 10.4
    gives 96: the offset is rounded (to 10) before it is clamped. *)
Lemma getColorObject_right_not_boundary :
  ~ (forall (st : tag_state) (rc : rect) (x ty : Q),
        0 < width rc -> 0 < height rc -> width rc < x ->
        hsv_eqv (@getColorObject Tiny.tiny st rc (left rc + x) ty)
                (@getColorObject Tiny.tiny st rc (left rc + width rc) ty)).
Proof.
  intros H.
  specialize (H Inputs.st_hsv0 Inputs.rect_frac (53 # 5) 5 eq_refl eq_refl eq_refl).
  vm_compute in H. destruct H as [_ [Hs _]]. vm_compute in Hs. discriminate Hs.
Qed.

(** C9 (amended): for a container of positive size, a pointer inside it
    gives [s] and [v] in [0, 100]; a pointer left of it gives the colour
    of the left edge; a pointer right of it gives the colour of the right
    edge when the width is a whole number of pixels. *)
Theorem getColorObject_clamped `{TC : TinyColor} (st : tag_state) (rc : rect) :
  0 < width rc -> 0 < height rc ->
  (forall (x y : Q) (out : hsv), 0 <= x <= width rc -> 0 <= y <= height rc ->
     getColorObject st rc (left rc + x) (top rc + y) = Some out ->
     0 <= s out <= 100 /\ 0 <= v out <= 100) /\
  (forall x ty : Q, x < 0 ->
     getColorObject st rc (left rc + x) ty = getColorObject st rc (left rc) ty) /\
  (forall (k : Z) (x ty : Q), width rc = inject_Z k -> width rc < x ->
     getColorObject st rc (left rc + x) ty
     = getColorObject st rc (left rc + width rc) ty).
Proof.
  intros Hw Hh. split; [|split].
  - intros x y out Hx Hy Hg. unfold getColorObject in Hg.
    destruct (getHsv st) as [hv|]; simpl in Hg; [|discriminate].
    injection Hg as <-. simpl.
    pose proof (clamp_x_range rc (left rc + x) (Qlt_le_weak _ _ Hw)) as Hcx.
    assert (Hty : 0 <= top rc + y - top rc) by lra.
    pose proof (clamp_y_range rc (top rc + y) (Qlt_le_weak _ _ Hh) Hty) as Hcy.
    pose proof (js_round_range _ (ratio_range _ _ Hw Hcx)) as Rs.
    pose proof (js_round_range _ (ratio_range _ _ Hh Hcy)) as Rv.
    split; [exact Rs|]. lra.
  - intros x ty Hx. unfold getColorObject.
    rewrite (clamp_x_left rc x (Qlt_le_weak _ _ Hw) Hx). reflexivity.
  - intros k x ty Hk Hx. unfold getColorObject.
    rewrite (clamp_x_right rc k x Hk (Qlt_le_weak _ _ Hw) Hx). reflexivity.
Qed.

Lemma getColorObject_clamped_witness :
  0 < width Inputs.rect_200x100 /\ 0 < height Inputs.rect_200x100 /\
  @getColorObject Tiny.tiny Inputs.st_hsv0 Inputs.rect_200x100 (left Inputs.rect_200x100 + 250) 7
  = @getColorObject Tiny.tiny Inputs.st_hsv0 Inputs.rect_200x100
      (left Inputs.rect_200x100 + width Inputs.rect_200x100) 7.
Proof.
  split; [reflexivity|]. split; [reflexivity|].
  destruct (getColorObject_clamped (TC := Tiny.tiny) Inputs.st_hsv0 Inputs.rect_200x100
              eq_refl eq_refl) as [_ [_ H3]].
  apply (H3 200%Z); reflexivity.
Defined.

(* ------------------------------------------------------------------ *)
(** ** Spectrum knobs, pointer handlers, colour style and format button *)

Lemma clamp100_range (q : Q) :
  0 <= (if Qlt_bool (if Qlt_bool 100 q then 100 else q) 0 then 0
        else if Qlt_bool 100 q then 100 else q) <= 100.
Proof.
  destruct (Qlt_bool 100 q) eqn:E1.
  - rewrite (proj2 (Qlt_bool_false 100 0)) by lra. lra.
  - apply Qlt_bool_false in E1.
    destruct (Qlt_bool q 0) eqn:E2; [lra|]. apply Qlt_bool_false in E2. lra.
Qed.

Lemma clamp100_id (q : Q) :
  0 <= q <= 100 ->
  (if Qlt_bool (if Qlt_bool 100 q then 100 else q) 0 then 0
   else if Qlt_bool 100 q then 100 else q) = q.
Proof.
  intros [H0 H1].
  rewrite (proj2 (Qlt_bool_false 100 q)) by lra.
  rewrite (proj2 (Qlt_bool_false q 0)) by lra. reflexivity.
Qed.

Lemma getSpectrumPosition_saturation `{TC : TinyColor} (st : tag_state) (hv : hsv) :
  getHsv st = Some hv -> 0 <= s hv <= 100 ->
  getSpectrumPosition st (js "saturation") = Some (Some (s hv)).
Proof.
  intros Hg Hr. unfold getSpectrumPosition. rewrite Hg. simpl.
  rewrite clamp100_id by exact Hr. reflexivity.
Qed.

Lemma getSpectrumPosition_brightness `{TC : TinyColor} (st : tag_state) (hv : hsv) :
  getHsv st = Some hv -> 0 <= 100 - v hv <= 100 ->
  getSpectrumPosition st (js "brightness") = Some (Some (100 - v hv)).
Proof.
  intros Hg Hr. unfold getSpectrumPosition. rewrite Hg. simpl.
  rewrite clamp100_id by exact Hr. reflexivity.
Qed.

(** X1: every knob position that [getSpectrumPosition] returns, for any parameter, lies in [0, 100]. *)
Theorem getSpectrumPosition_range `{TC : TinyColor} (st : tag_state) (param : jstring) (q : Q) :
  getSpectrumPosition st param = Some (Some q) -> 0 <= q <= 100.
Proof.
  unfold getSpectrumPosition. destruct (getHsv st) as [hv|]; simpl; [|discriminate].
  destruct (decide _); [intros H; injection H as <-; apply clamp100_range|].
  destruct (decide _); [intros H; injection H as <-; apply clamp100_range|].
  discriminate.
Qed.

Lemma getSpectrumPosition_range_witness :
  exists q, @getSpectrumPosition Tiny.tiny Inputs.st_red (js "saturation") = Some (Some q) /\
    0 <= q <= 100.
Proof.
  eexists. split; [reflexivity|].
  apply (getSpectrumPosition_range (TC := Tiny.tiny) Inputs.st_red (js "saturation")).
  reflexivity.
Defined.


Lemma clamp_y_any_range (rc : rect) (ty : Q) :
  1 # 10 <= height rc -> 0 <= clamp_y rc ty <= height rc.
Proof.
  intros Hh. unfold clamp_y.
  destruct (Qlt_bool (height rc) (js_round (ty - top rc))) eqn:E1.
  - rewrite (proj2 (Qlt_bool_false (height rc) 0)) by lra. lra.
  - apply Qlt_bool_false in E1.
    destruct (Qlt_bool (js_round (ty - top rc)) 0) eqn:E2.
    + lra.
    + apply Qlt_bool_false in E2. lra.
Qed.

(** X2: when the host passes back as [opts.hsv] the hsv that [getColorObject] computed for a pointer inside a container of positive width and of height at least 0.1, the saturation knob sits at that saturation and the brightness knob at 100 minus that brightness, without clamping. *)
Theorem spectrum_knob_follows_pointer `{TC : TinyColor} (st st' : tag_state) (rc : rect)
    (px py : Q) (hv : hsv) :
  0 < width rc -> 1 # 10 <= height rc ->
  getColorObject st rc px py = Some hv -> opts_hsv (opts st') = Some hv ->
  getSpectrumPosition st' (js "saturation") = Some (Some (s hv)) /\
  getSpectrumPosition st' (js "brightness") = Some (Some (100 - v hv)).
Proof.
  intros Hw Hh Hg Ho.
  assert (Hs : getHsv st' = Some hv) by (unfold getHsv; rewrite Ho; reflexivity).
  unfold getColorObject in Hg. destruct (getHsv st) as [hv0|]; simpl in Hg; [|discriminate].
  injection Hg as <-.
  pose proof (js_round_range _ (ratio_range _ _ Hw (clamp_x_range rc px (Qlt_le_weak _ _ Hw)))) as Rs.
  assert (Hh' : 0 < height rc) by lra.
  pose proof (js_round_range _ (ratio_range _ _ Hh' (clamp_y_any_range rc py Hh))) as Rv.
  split.
  - apply getSpectrumPosition_saturation; [exact Hs|exact Rs].
  - apply getSpectrumPosition_brightness; [exact Hs|simpl; lra].
Qed.

Lemma spectrum_knob_follows_pointer_witness :
  exists hv, 0 < width Inputs.rect_200x100 /\ 1 # 10 <= height Inputs.rect_200x100 /\
    @getColorObject Tiny.tiny Inputs.st_red Inputs.rect_200x100 50 25 = Some hv /\
    opts_hsv (opts (MoreInputs.st_red_with_hsv hv)) = Some hv /\
    @getSpectrumPosition Tiny.tiny (MoreInputs.st_red_with_hsv hv) (js "saturation")
      = Some (Some (s hv)) /\
    @getSpectrumPosition Tiny.tiny (MoreInputs.st_red_with_hsv hv) (js "brightness")
      = Some (Some (100 - v hv)).
Proof.
  eexists. split; [reflexivity|]. split; [vm_compute; discriminate|].
  split; [reflexivity|]. split; [reflexivity|].
  apply (spectrum_knob_follows_pointer (TC := Tiny.tiny) Inputs.st_red
           (MoreInputs.st_red_with_hsv _) Inputs.rect_200x100 50 25);
    [reflexivity|vm_compute; discriminate|reflexivity|reflexivity].
Defined.


Ltac split_binds :=
  repeat (cbn; match goal with
               | |- context [@mbind option _ _ _ _ ?x] => destruct x
               | |- context [match ?x with Some _ => _ | None => _ end] => destruct x
               end).

Lemma emit_pointer_color_lastValid `{TC : TinyColor} (rc : rect) (px py : Q)
    (st st' : tag_state) (e : color * hsv) :
  emit_pointer_color rc px py st = Some (st', e) ->
  lastValidColor st' = lastValidColor st /\ isCatcherActive st' = isCatcherActive st /\
  this_color st' = this_color st /\ opts st' = opts st.
Proof.
  unfold emit_pointer_color. split_binds; intros H; try discriminate.
  injection H as <- _. match goal with |- context [negb ?m] => destruct m end; repeat split.
Qed.

(** [handleCatcherMouseMove] is the shared pointer body, guarded by the
    flag. *)
Lemma handleCatcherMouseMove_emit `{TC : TinyColor} (rc : rect) (px py : Q) (st : tag_state) :
  handleCatcherMouseMove rc px py st =
  if isCatcherActive st then
    match emit_pointer_color rc px py st with
    | Some (st', e) => Some (st', Some e)
    | None => None
    end
  else Some (st, None).
Proof.
  unfold handleCatcherMouseMove, emit_pointer_color.
  destruct (isCatcherActive st); simpl; [|reflexivity].
  split_binds; reflexivity.
Qed.

(** X3: [lastValidColor] always holds a valid hex string: init sets it to one, the update handler only replaces it by a valid hex value, and the three pointer handlers and the hue slider never change it. *)
Theorem lastValidColor_stays_hex `{TC : TinyColor} :
  (forall p : props, isHex (lastValidColor (init p)) = true) /\
  (forall (p : props) (st st' : tag_state), isHex (lastValidColor st) = true ->
     on_update p st = Some st' -> isHex (lastValidColor st') = true) /\
  (forall (rc : rect) (px py : Q) (st st' : tag_state) (e : color * hsv),
     handleCanvasMouseDown rc px py st = Some (st', e) \/
     handleCatcherMouseUp rc px py st = Some (st', e) \/
     handleCatcherMouseMove rc px py st = Some (st', Some e) \/
     handleHueSliderChange px st = Some (st', e) ->
     lastValidColor st' = lastValidColor st).
Proof.
  split; [|split].
  - intros p. reflexivity.
  - intros p st st' Hv. unfold on_update.
    destruct (match opts_color p with Some c => c | None => default_color end) as [f x].
    simpl. destruct f, x; intros H; try discriminate; injection H as <-; simpl; try exact Hv.
    destruct (isHex str) eqn:E; assumption.
  - intros rc px py st st' e [H|[H|[H|H]]].
    + apply emit_pointer_color_lastValid in H. apply H.
    + apply emit_pointer_color_lastValid in H. apply H.
    + rewrite handleCatcherMouseMove_emit in H.
      destruct (isCatcherActive st); [|discriminate].
      destruct (emit_pointer_color rc px py st) as [[st1 e1]|] eqn:E; [|discriminate].
      injection H as <- _. apply emit_pointer_color_lastValid in E. apply E.
    + apply handleHueSliderChange_state in H. now subst.
Qed.

Lemma lastValidColor_stays_hex_witness :
  exists st', isHex (lastValidColor Inputs.st_red) = true /\
    on_update MoreInputs.props_fff Inputs.st_red = Some st' /\
    isHex (lastValidColor st') = true.
Proof.
  eexists. split; [reflexivity|]. split; [reflexivity|].
  apply (proj1 (proj2 (lastValidColor_stays_hex (TC := Tiny.tiny)))
           MoreInputs.props_fff Inputs.st_red); reflexivity.
Defined.


Lemma strip_sharp_pound (str : jstring) :
  strip_sharp (concatenatePoundKey str) = strip_sharp str.
Proof.
  destruct str as [|c t]; [reflexivity|]. simpl.
  destruct (N.eqb_spec c SHARP) as [->|Hc]; simpl; [reflexivity|].
  destruct (N.eqb_spec c SHARP); [contradiction|reflexivity].
Qed.

Lemma isHex_pound (str : jstring) : isHex (concatenatePoundKey str) = isHex str.
Proof. unfold isHex. rewrite strip_sharp_pound. reflexivity. Qed.

Lemma isTypingHex_pound (str : jstring) :
  isTypingHex (concatenatePoundKey str) = isTypingHex str.
Proof. unfold isTypingHex. rewrite strip_sharp_pound. reflexivity. Qed.

Lemma head_pound (str : jstring) : head (concatenatePoundKey str) = Some SHARP.
Proof.
  destruct str as [|c t]; [reflexivity|]. simpl.
  destruct (N.eqb_spec c SHARP) as [->|]; reflexivity.
Qed.

(** X4: for a HEX colour and a valid hex [lastValidColor], [getColorStyle] always yields a valid hex style; when the colour's own string is a valid hex, the style is that string with a [#] prefixed if it was absent. *)
Theorem getColorStyle_hex (num_str : Q -> jstring) (st : tag_state) (str : jstring) :
  format (this_color st) = HEX -> value (this_color st) = VStr str ->
  isHex (lastValidColor st) = true ->
  exists style, getColorStyle num_str st = Some style /\ isHex style = true /\
    (isHex str = true -> head style = Some SHARP /\ strip_sharp style = strip_sharp str).
Proof.
  intros Hf Hv Hl. unfold getColorStyle. rewrite Hf, Hv.
  destruct (isHex str) eqn:E.
  - eexists. split; [reflexivity|]. rewrite isHex_pound. split; [exact E|].
    intros _. split; [apply head_pound|apply strip_sharp_pound].
  - eexists. split; [reflexivity|]. split; [exact Hl|discriminate].
Qed.

Lemma getColorStyle_hex_witness :
  let num_str := fun _ : Q => js "0" in
  format (this_color Inputs.st_hex_only) = HEX /\
  value (this_color Inputs.st_hex_only) = VStr (js "#ff0000") /\
  isHex (lastValidColor Inputs.st_hex_only) = true /\
  exists style, getColorStyle num_str Inputs.st_hex_only = Some style /\ isHex style = true /\
    (isHex (js "#ff0000") = true ->
     head style = Some SHARP /\ strip_sharp style = strip_sharp (js "#ff0000")).
Proof.
  intros num_str. split; [reflexivity|]. split; [reflexivity|]. split; [reflexivity|].
  apply (getColorStyle_hex num_str Inputs.st_hex_only (js "#ff0000")); reflexivity.
Defined.


(** X5: the hex input keeps the current format; it emits either a typing-hex string (carrying a [#] when it is a complete hex) or the host's colour value unchanged; and its result is [normalizeHexValue] of the input against the host's colour value. *)
Theorem handleInputHexInput_spec (raw : jstring) (st : tag_state) (c : color) :
  handleInputHexInput raw st = Some c ->
  format c = format (this_color st) /\
  ((exists w, value c = VStr w /\ isTypingHex w = true /\
              (isHex w = true -> head w = Some SHARP)) \/
   (exists oc, opts_color (opts st) = Some oc /\ value c = value oc)) /\
  (forall oc, opts_color (opts st) = Some oc ->
     c = mk_color (format (this_color st)) (normalizeHexValue raw (value oc))).
Proof.
  unfold handleInputHexInput, normalizeHexValue.
  set (w0 := replace_fullwidth raw).
  destruct (isHex w0) eqn:Eh.
  - rewrite isTypingHex_pound, (isHex_isTypingHex _ Eh).
    intros H. injection H as <-. split; [reflexivity|]. split.
    + left. eexists. split; [reflexivity|]. rewrite isTypingHex_pound.
      split; [exact (isHex_isTypingHex _ Eh)|]. intros _. apply head_pound.
    + intros oc _. reflexivity.
  - destruct (isTypingHex w0) eqn:Et.
    + intros H. injection H as <-. split; [reflexivity|]. split.
      * left. eexists. split; [reflexivity|]. split; [exact Et|].
        rewrite Eh. discriminate.
      * intros oc _. reflexivity.
    + destruct (opts_color (opts st)) as [oc|] eqn:Eo; simpl; [|discriminate].
      intros H. injection H as <-. split; [reflexivity|]. split.
      * right. exists oc. split; reflexivity.
      * intros oc' Hoc. injection Hoc as <-. reflexivity.
Qed.

Lemma handleInputHexInput_spec_witness :
  let st := Inputs.st_hex_only in
  exists c, handleInputHexInput (js "fff") st = Some c /\
  format c = format (this_color st) /\
  ((exists w, value c = VStr w /\ isTypingHex w = true /\
              (isHex w = true -> head w = Some SHARP)) \/
   (exists oc, opts_color (opts st) = Some oc /\ value c = value oc)) /\
  (forall oc, opts_color (opts st) = Some oc ->
     c = mk_color (format (this_color st)) (normalizeHexValue (js "fff") (value oc))).
Proof.
  intros st. eexists. split; [reflexivity|].
  apply (handleInputHexInput_spec (js "fff") st). reflexivity.
Defined.


Lemma getColorObject_same_hsv `{TC : TinyColor} (st1 st2 : tag_state) (rc : rect) (px py : Q) :
  getHsv st1 = getHsv st2 -> getColorObject st1 rc px py = getColorObject st2 rc px py.
Proof. intros H. unfold getColorObject. rewrite H. reflexivity. Qed.

(** X6: after a mouse-up on the catcher, the catcher is inactive and every later mouse-move is ignored: it leaves the state unchanged and emits nothing. *)
Theorem handleCatcherMouseUp_stops_moves `{TC : TinyColor} (rc : rect) (px py : Q)
    (st st' : tag_state) (e : color * hsv) :
  handleCatcherMouseUp rc px py st = Some (st', e) ->
  isCatcherActive st' = false /\
  forall (rc' : rect) (x y : Q), handleCatcherMouseMove rc' x y st' = Some (st', None).
Proof.
  unfold handleCatcherMouseUp. intros H.
  apply emit_pointer_color_lastValid in H. destruct H as [_ [Ha _]].
  simpl in Ha. split; [exact Ha|].
  intros rc' x y. rewrite handleCatcherMouseMove_emit, Ha. reflexivity.
Qed.

Lemma handleCatcherMouseUp_stops_moves_witness :
  exists st' e,
    @handleCatcherMouseUp Tiny.tiny Inputs.rect_200x100 50 25 Inputs.st_red = Some (st', e) /\
    isCatcherActive st' = false /\
    forall (rc' : rect) (x y : Q), @handleCatcherMouseMove Tiny.tiny rc' x y st' = Some (st', None).
Proof.
  do 2 eexists. split; [reflexivity|].
  eapply (handleCatcherMouseUp_stops_moves (TC := Tiny.tiny) Inputs.rect_200x100 50 25
           Inputs.st_red). reflexivity.
Defined.


(** X7: after a mouse-down on the canvas, the catcher is active, and a mouse-move at the same pointer emits the same colour and hsv and leaves the state unchanged. *)
Theorem handleCanvasMouseDown_then_move `{TC : TinyColor} (rc : rect) (px py : Q)
    (st st' : tag_state) (e : color * hsv) :
  handleCanvasMouseDown rc px py st = Some (st', e) ->
  isCatcherActive st' = true /\ handleCatcherMouseMove rc px py st' = Some (st', Some e).
Proof.
  unfold handleCanvasMouseDown. set (st1 := set_catcher st true).
  unfold emit_pointer_color.
  destruct (getColorObject st1 rc px py) as [hv|] eqn:Eg;
    cbn [mbind option_bind]; [|discriminate].
  destruct (convertColor (lastValidColor st1) HSV (VHsv hv) (format (this_color st1)))
    as [cv|] eqn:Ec; cbn [mbind option_bind]; [|discriminate].
  destruct (isMonochrome (lastValidColor st1) (format (this_color st1)) cv) as [mono|] eqn:Em;
    cbn [mbind option_bind]; [|discriminate].
  intros H. injection H as <- <-.
  assert (Hs : forall st2, getHsv st2 = getHsv st1 -> lastValidColor st2 = lastValidColor st1 ->
                 this_color st2 = this_color st1 -> isCatcherActive st2 = true ->
                 handleCatcherMouseMove rc px py st2
                 = Some (if negb mono then set_latestValidHue st2 (h hv) else st2,
                         Some (mk_color (format (this_color st1)) cv, hv))).
  { intros st2 H1 H2 H3 H4. rewrite handleCatcherMouseMove_emit, H4.
    unfold emit_pointer_color. rewrite (getColorObject_same_hsv st2 st1 rc px py H1), Eg.
    cbn [mbind option_bind]. rewrite H2, H3, Ec. cbn [mbind option_bind]. rewrite Em.
    reflexivity. }
  destruct mono; cbv [negb].
  - split; [reflexivity|]. apply Hs; reflexivity.
  - split; [reflexivity|]. rewrite (Hs (set_latestValidHue st1 (h hv))); reflexivity.
Qed.

Lemma handleCanvasMouseDown_then_move_witness :
  exists st' e,
    @handleCanvasMouseDown Tiny.tiny Inputs.rect_200x100 50 25 Inputs.st_red = Some (st', e) /\
    isCatcherActive st' = true /\
    @handleCatcherMouseMove Tiny.tiny Inputs.rect_200x100 50 25 st' = Some (st', Some e).
Proof.
  do 2 eexists. split; [reflexivity|].
  apply (handleCanvasMouseDown_then_move (TC := Tiny.tiny) Inputs.rect_200x100 50 25
           Inputs.st_red). reflexivity.
Defined.


(** X8: with at least one step of fuel, a tap on the format button of a HEX or RGBA colour switches to the other of the two formats when that one is selectable. *)
Theorem handleColorChangeButtonTap_switches `{TC : TinyColor} (fuel : nat) (st : tag_state) :
  (1 <= fuel)%nat ->
  format (this_color st) <> HSV ->
  selectableColorCode st (other_format (format (this_color st))) = true ->
  handleColorChangeButtonTap fuel st =
  match convertColor (lastValidColor st) (format (this_color st)) (value (this_color st))
          (other_format (format (this_color st))) with
  | Some v' => Emit (mk_color (other_format (format (this_color st))) v')
  | None => Throw
  end.
Proof.
  intros Hf Hn Hs. destruct fuel as [|fuel]; [lia|].
  unfold handleColorChangeButtonTap.
  destruct (format (this_color st)) eqn:E; [| |contradiction]; simpl in *; rewrite Hs;
    reflexivity.
Qed.

Lemma handleColorChangeButtonTap_switches_witness :
  let st := Inputs.st_red in
  (1 <= 1)%nat /\ format (this_color st) <> HSV /\
  selectableColorCode st (other_format (format (this_color st))) = true /\
  @handleColorChangeButtonTap Tiny.tiny 1 st =
  match @convertColor Tiny.tiny (lastValidColor st) (format (this_color st))
          (value (this_color st)) (other_format (format (this_color st))) with
  | Some v' => Emit (mk_color (other_format (format (this_color st))) v')
  | None => Throw
  end.
Proof.
  intros st. split; [lia|]. split; [simpl; discriminate|]. split; [reflexivity|].
  apply (handleColorChangeButtonTap_switches (TC := Tiny.tiny) 1 st);
    [lia|simpl; discriminate|reflexivity].
Defined.


(** X9: with at least two steps of fuel, when the other format is not selectable but the current one is, the tap converts the colour to its own format. *)
Theorem handleColorChangeButtonTap_stays `{TC : TinyColor} (fuel : nat) (st : tag_state) :
  (2 <= fuel)%nat ->
  format (this_color st) <> HSV ->
  selectableColorCode st (other_format (format (this_color st))) = false ->
  selectableColorCode st (format (this_color st)) = true ->
  handleColorChangeButtonTap fuel st =
  match convertColor (lastValidColor st) (format (this_color st)) (value (this_color st))
          (format (this_color st)) with
  | Some v' => Emit (mk_color (format (this_color st)) v')
  | None => Throw
  end.
Proof.
  intros Hf Hn Ho Hs. destruct fuel as [|[|fuel]]; [lia|lia|].
  unfold handleColorChangeButtonTap.
  destruct (format (this_color st)) eqn:E; [| |contradiction]; simpl in *;
    rewrite Ho, Hs; reflexivity.
Qed.

Lemma handleColorChangeButtonTap_stays_witness :
  let st := Inputs.st_hex_only in
  (2 <= 2)%nat /\ format (this_color st) <> HSV /\
  selectableColorCode st (other_format (format (this_color st))) = false /\
  selectableColorCode st (format (this_color st)) = true /\
  @handleColorChangeButtonTap Tiny.tiny 2 st =
  match @convertColor Tiny.tiny (lastValidColor st) (format (this_color st))
          (value (this_color st)) (format (this_color st)) with
  | Some v' => Emit (mk_color (format (this_color st)) v')
  | None => Throw
  end.
Proof.
  intros st. split; [lia|]. split; [simpl; discriminate|].
  split; [reflexivity|]. split; [reflexivity|].
  apply (handleColorChangeButtonTap_stays (TC := Tiny.tiny) 2 st);
    [lia|simpl; discriminate|reflexivity|reflexivity].
Defined.


Lemma cycle_loop_none (fuel : nat) (sel : color_code -> bool) (index : nat) :
  sel HEX = false -> sel RGBA = false -> cycle_loop fuel sel index = None.
Proof.
  intros Hh Hr. revert index. induction fuel as [|fuel IH]; intros index; [reflexivity|].
  simpl. destruct (index =? 1)%nat; simpl; rewrite ?Hr, ?Hh; [apply IH|].
  destruct index as [|[|i]]; simpl; rewrite ?Hr, ?Hh; apply IH.
Qed.

(** X10: when neither HEX nor RGBA is selectable, the format search of a HEX or RGBA colour never ends, whatever the fuel. *)
Theorem handleColorChangeButtonTap_none_selectable `{TC : TinyColor} (st : tag_state) :
  format (this_color st) <> HSV ->
  selectableColorCode st HEX = false -> selectableColorCode st RGBA = false ->
  forall fuel : nat, handleColorChangeButtonTap fuel st = OutOfFuel.
Proof.
  intros Hn Hh Hr fuel. unfold handleColorChangeButtonTap.
  destruct (format (this_color st)); [| |contradiction]; simpl;
    rewrite cycle_loop_none by assumption; reflexivity.
Qed.

Lemma handleColorChangeButtonTap_none_selectable_witness :
  let st := MoreInputs.st_none_selectable in
  format (this_color st) <> HSV /\
  selectableColorCode st HEX = false /\ selectableColorCode st RGBA = false /\
  @handleColorChangeButtonTap Tiny.tiny 5 st = OutOfFuel.
Proof.
  intros st. split; [simpl; discriminate|]. split; [reflexivity|]. split; [reflexivity|].
  apply (handleColorChangeButtonTap_none_selectable (TC := Tiny.tiny) st);
    [simpl; discriminate|reflexivity|reflexivity].
Defined.


(* ------------------------------------------------------------------ *)
(** ** Alpha and RGB channel inputs on the heap *)

Module HeapFacts.
Import Heap Channels.

Lemma heap_wf_fresh (hs : heap_state) (l : loc) :
  heap_wf hs -> mem hs !! l <> None -> l <> next_free hs.
Proof.
  intros Hwf Hl ->. destruct (mem hs !! next_free hs) as [o|] eqn:E; [|contradiction].
  specialize (Hwf _ _ E). simpl in Hwf. lia.
Qed.

Lemma heap_wf_mono (m : gmap loc obj) (nf : loc) :
  map_Forall (fun l' _ => (l' < nf)%positive) m ->
  map_Forall (fun l' _ => (l' < Pos.succ nf)%positive) m.
Proof. intros H. eapply map_Forall_impl; [exact H|]. intros l0 o0 Hl0. simpl in *. lia. Qed.

(** X12: the alpha slider on a HEX colour stores the RGBA conversion of the hex string with alpha set to the double nearest alpha/100 under [this.color], in a well-formed heap. *)
Theorem handleAlphaSliderChange_from_hex `{TC : TinyColor} (alpha : Q) (hs : heap_state)
    (str : jstring) :
  heap_wf hs -> mem hs !! this_color_ref hs = Some (OColor HEX (JStr str)) ->
  exists hs', handleAlphaSliderChange alpha hs = Some (hs', this_color_ref hs) /\
    heap_wf hs' /\
    deref_color hs' = Some (mk_color RGBA
                              (VRgba (set_a (toRgb (tinycolor_of (VStr str))) (fl (alpha / 100))))).
Proof.
  intros Hwf Hl.
  assert (Hne : this_color_ref hs <> next_free hs)
    by (apply heap_wf_fresh; [exact Hwf|rewrite Hl; discriminate]).
  assert (Hlt : (this_color_ref hs < next_free hs)%positive) by exact (Hwf _ _ Hl).
  unfold handleAlphaSliderChange. rewrite Hl. simpl.
  rewrite lookup_insert_eq. simpl. rewrite lookup_insert_ne by congruence.
  rewrite lookup_insert_eq. eexists. split; [reflexivity|]. split.
  - unfold heap_wf. simpl.
    apply map_Forall_insert_2; [lia|].
    apply map_Forall_insert_2; [lia|].
    apply map_Forall_insert_2; [lia|].
    apply map_Forall_insert_2; [lia|].
    apply heap_wf_mono. exact Hwf.
  - unfold deref_color. simpl.
    rewrite lookup_insert_ne by congruence. rewrite lookup_insert_eq. simpl.
    rewrite lookup_insert_eq. reflexivity.
Qed.

Lemma handleAlphaSliderChange_from_hex_witness :
  let hs := MoreInputs.hs_hex in
  let str := js "#ff0000" in
  heap_wf hs /\ mem hs !! this_color_ref hs = Some (OColor HEX (JStr str)) /\
  exists hs', @handleAlphaSliderChange Tiny.tiny 50 hs = Some (hs', this_color_ref hs) /\
    heap_wf hs' /\
    deref_color hs' = Some (mk_color RGBA
      (VRgba (set_a (@toRgb Tiny.tiny (@tinycolor_of Tiny.tiny (VStr str))) (fl (50 / 100))))).
Proof.
  intros hs str. split; [unfold heap_wf; simpl;
      repeat (apply map_Forall_insert_2; [simpl; lia|]); apply map_Forall_empty|]. split; [reflexivity|].
  apply (handleAlphaSliderChange_from_hex (TC := Tiny.tiny) 50 hs str); [unfold heap_wf; simpl;
      repeat (apply map_Forall_insert_2; [simpl; lia|]); apply map_Forall_empty|reflexivity].
Defined.


(** X13: the alpha slider on an RGBA colour rewrites [this.color] in place, allocates nothing, and stores the old rgba with alpha set to the double nearest alpha/100. *)
Theorem handleAlphaSliderChange_rgba `{TC : TinyColor} (alpha : Q) (hs : heap_state)
    (lv : loc) (c : rgba) :
  mem hs !! this_color_ref hs = Some (OColor RGBA (JRef lv)) ->
  mem hs !! lv = Some (ORgba c) ->
  exists hs', handleAlphaSliderChange alpha hs = Some (hs', this_color_ref hs) /\
    next_free hs' = next_free hs /\
    deref_color hs' = Some (mk_color RGBA (VRgba (set_a c (fl (alpha / 100))))).
Proof.
  intros Hl Hv.
  assert (Hne : lv <> this_color_ref hs) by (intros ->; congruence).
  unfold handleAlphaSliderChange. rewrite Hl. simpl. rewrite Hl, Hv.
  eexists. split; [reflexivity|]. split; [reflexivity|].
  unfold deref_color. simpl. rewrite lookup_insert_ne by congruence. rewrite Hl. simpl.
  rewrite lookup_insert_eq. reflexivity.
Qed.

Lemma handleAlphaSliderChange_rgba_witness :
  let hs := Inputs.hs_rgba in
  let c := mk_rgba 10 20 30 1 in
  mem hs !! this_color_ref hs = Some (OColor RGBA (JRef 2%positive)) /\
  mem hs !! 2%positive = Some (ORgba c) /\
  exists hs', @handleAlphaSliderChange Tiny.tiny 50 hs = Some (hs', this_color_ref hs) /\
    next_free hs' = next_free hs /\
    deref_color hs' = Some (mk_color RGBA (VRgba (set_a c (fl (50 / 100))))).
Proof.
  intros hs c. split; [reflexivity|]. split; [reflexivity|].
  apply (handleAlphaSliderChange_rgba (TC := Tiny.tiny) 50 hs 2%positive c);
    reflexivity.
Defined.


Lemma colorValue_eq (val : input_value) :
  or_zero val == match val with INum q => q | _ => 0 end.
Proof.
  destruct val as [q| | | |]; simpl; try reflexivity.
  destruct (Qeq_bool q 0) eqn:E; [|reflexivity].
  apply Qeq_bool_iff in E. rewrite E. reflexivity.
Qed.

Ltac channel_case hs lv Hwf Hl Hv :=
  let Hne := fresh in let Hlt := fresh in let Hvl := fresh in let Hvt := fresh in
  assert (Hne : lv <> next_free hs)
    by (apply heap_wf_fresh; [exact Hwf|rewrite Hv; discriminate]);
  assert (Hlt : this_color_ref hs <> next_free hs)
    by (apply heap_wf_fresh; [exact Hwf|rewrite Hl; discriminate]);
  assert (Hvl : (lv < next_free hs)%positive) by exact (Hwf _ _ Hv);
  assert (Hvt : lv <> this_color_ref hs) by congruence;
  rewrite Hl; simpl; rewrite lookup_insert_ne by congruence; rewrite Hv;
  do 3 eexists; split; [reflexivity|]; split; [|split; [congruence|split; [|split]]];
  [ unfold heap_wf; simpl; apply map_Forall_insert_2; [lia|];
    apply map_Forall_insert_2; [lia|]; apply heap_wf_mono; exact Hwf
  | unfold deref_color; simpl; simplify_map_eq; rewrite ?Hl; simpl; simplify_map_eq;
    reflexivity
  | unfold deref_at, deref_color; simpl; simplify_map_eq; rewrite ?Hl; simpl;
    simplify_map_eq; reflexivity
  | simpl; repeat split; try apply colorValue_eq ].

(** X14: each of the red, green and blue inputs on an RGBA colour returns a fresh copy of [this.color], keeps the heap well formed, and changes only its own channel, which then equals the input value, or 0 when the field is empty, null, undefined or NaN ([value || 0]). *)
Theorem rgb_inputs_set_one_channel (val : input_value) (hs : heap_state) (lv : loc) (c : rgba) :
  heap_wf hs ->
  mem hs !! this_color_ref hs = Some (OColor RGBA (JRef lv)) ->
  mem hs !! lv = Some (ORgba c) ->
  (exists hs' l c', handleInputRgbaRedInput val hs = Some (hs', l) /\ heap_wf hs' /\
     l <> this_color_ref hs /\ deref_color hs' = Some (mk_color RGBA (VRgba c')) /\
     deref_at hs' l = deref_color hs' /\
     r c' == match val with INum q => q | _ => 0 end /\ g c' = g c /\ b c' = b c /\ a c' = a c) /\
  (exists hs' l c', handleInputRgbaGreenInput val hs = Some (hs', l) /\ heap_wf hs' /\
     l <> this_color_ref hs /\ deref_color hs' = Some (mk_color RGBA (VRgba c')) /\
     deref_at hs' l = deref_color hs' /\
     r c' = r c /\ g c' == match val with INum q => q | _ => 0 end /\ b c' = b c /\ a c' = a c) /\
  (exists hs' l c', handleInputRgbaBlueInput val hs = Some (hs', l) /\ heap_wf hs' /\
     l <> this_color_ref hs /\ deref_color hs' = Some (mk_color RGBA (VRgba c')) /\
     deref_at hs' l = deref_color hs' /\
     r c' = r c /\ g c' = g c /\ b c' == match val with INum q => q | _ => 0 end /\ a c' = a c).
Proof.
  intros Hwf Hl Hv.
  split; [|split].
  - unfold handleInputRgbaRedInput. channel_case hs lv Hwf Hl Hv.
  - unfold handleInputRgbaGreenInput. channel_case hs lv Hwf Hl Hv.
  - unfold handleInputRgbaBlueInput. channel_case hs lv Hwf Hl Hv.
Qed.

Lemma rgb_inputs_set_one_channel_witness :
  let hs := Inputs.hs_rgba in
  let c := mk_rgba 10 20 30 1 in
  heap_wf hs /\ mem hs !! this_color_ref hs = Some (OColor RGBA (JRef 2%positive)) /\
  mem hs !! 2%positive = Some (ORgba c) /\
  (exists hs' l c', handleInputRgbaRedInput IEmpty hs = Some (hs', l) /\ heap_wf hs' /\
     l <> this_color_ref hs /\ deref_color hs' = Some (mk_color RGBA (VRgba c')) /\
     deref_at hs' l = deref_color hs' /\
     r c' == 0 /\ g c' = g c /\ b c' = b c /\ a c' = a c) /\
  (exists hs' l c', handleInputRgbaGreenInput IEmpty hs = Some (hs', l) /\ heap_wf hs' /\
     l <> this_color_ref hs /\ deref_color hs' = Some (mk_color RGBA (VRgba c')) /\
     deref_at hs' l = deref_color hs' /\
     r c' = r c /\ g c' == 0 /\ b c' = b c /\ a c' = a c) /\
  (exists hs' l c', handleInputRgbaBlueInput IEmpty hs = Some (hs', l) /\ heap_wf hs' /\
     l <> this_color_ref hs /\ deref_color hs' = Some (mk_color RGBA (VRgba c')) /\
     deref_at hs' l = deref_color hs' /\
     r c' = r c /\ g c' = g c /\ b c' == 0 /\ a c' = a c).
Proof.
  intros hs c. split; [unfold heap_wf; simpl;
      repeat (apply map_Forall_insert_2; [simpl; lia|]); apply map_Forall_empty|]. split; [reflexivity|]. split; [reflexivity|].
  apply (rgb_inputs_set_one_channel IEmpty hs 2%positive c); [unfold heap_wf; simpl;
      repeat (apply map_Forall_insert_2; [simpl; lia|]); apply map_Forall_empty|reflexivity|reflexivity].
Defined.


End HeapFacts.

(* ------------------------------------------------------------------ *)
(** ** Touch gestures *)

Module TouchFacts.
Import Touch.

Lemma run_moves (ontap : option jstring) (tag_has : jstring -> bool) (x0 y0 : Q)
    (hv : bool) (moves : list (Q * Q)) (rest : list tevent) :
  run ontap tag_has (mk_touch x0 y0 hv) (map (fun p => TMove p.1 p.2) moves ++ rest)
  = run ontap tag_has (mk_touch x0 y0 (hv && within_range x0 y0 moves)) rest.
Proof.
  revert hv. induction moves as [|[x y] moves IH]; intros hv.
  - simpl. rewrite andb_true_r. reflexivity.
  - unfold within_range. simpl. fold (within_range x0 y0 moves).
    destruct hv; simpl.
    + destruct (far (x - x0) (y - y0)); simpl; rewrite IH;
        destruct (run _ _ _ rest) as [[ts2 o2]|]; reflexivity.
    + rewrite IH. destruct (run _ _ _ rest) as [[ts2 o2]|]; reflexivity.
Qed.

Lemma run_gesture (ontap : option jstring) (tag_has : jstring -> bool) (ts : touch_state)
    (x0 y0 : Q) (moves : list (Q * Q)) :
  run ontap tag_has ts (gesture x0 y0 moves)
  = run ontap tag_has (mk_touch x0 y0 (within_range x0 y0 moves)) [TEnd].
Proof.
  unfold gesture. simpl. rewrite run_moves. simpl.
  destruct (within_range x0 y0 moves), ontap; reflexivity.
Qed.

(** X15: a touch gesture whose handler name resolves to a non-empty handler of the tag calls that handler exactly once when no move leaves the allowed range, and not at all otherwise; the gesture ends with the hover flag off. *)
Theorem tap_fires_iff_within_range (name : jstring) (tag_has : jstring -> bool)
    (ts : touch_state) (x0 y0 : Q) (moves : list (Q * Q)) :
  resolve_handler name <> [] -> tag_has (resolve_handler name) = true ->
  run (Some name) tag_has ts (gesture x0 y0 moves)
  = Some (mk_touch x0 y0 false,
          if within_range x0 y0 moves then [resolve_handler name] else []).
Proof.
  intros Hn Ht. rewrite run_gesture. simpl.
  destruct (within_range x0 y0 moves); simpl; [|reflexivity].
  rewrite bool_decide_false by exact Hn. rewrite Ht. reflexivity.
Qed.

Lemma tap_fires_iff_within_range_witness :
  let name := js "handleTap" in
  let moves := [(3, 4); (20, 0)] in
  resolve_handler name <> [] /\ MoreInputs.tag_has (resolve_handler name) = true /\
  run (Some name) MoreInputs.tag_has MoreInputs.touch0 (gesture 0 0 moves)
  = Some (mk_touch 0 0 false,
          if within_range 0 0 moves then [resolve_handler name] else []).
Proof.
  intros name moves. split; [vm_compute; discriminate|]. split; [reflexivity|].
  apply (tap_fires_iff_within_range name MoreInputs.tag_has MoreInputs.touch0 0 0 moves);
    [vm_compute; discriminate|reflexivity].
Defined.


(** X16: without an [ontap] attribute, a gesture that stays within range fails (the handler name is read from undefined), and a gesture that leaves the range calls nothing. *)
Theorem tap_without_ontap_throws (tag_has : jstring -> bool) (ts : touch_state)
    (x0 y0 : Q) (moves : list (Q * Q)) :
  run None tag_has ts (gesture x0 y0 moves)
  = if within_range x0 y0 moves then None else Some (mk_touch x0 y0 false, []).
Proof.
  rewrite run_gesture. simpl. destruct (within_range x0 y0 moves); reflexivity.
Qed.

Lemma resolve_handler_parent (n : jstring) : resolve_handler (PARENT ++ n) = n.
Proof.
  unfold resolve_handler. rewrite take_app_length, decide_True by reflexivity.
  apply drop_app_length.
Qed.

(** X17: a handler name with the [parent.] prefix calls the tag's handler named by the rest of the name. *)
Theorem tap_parent_handler (n : jstring) (tag_has : jstring -> bool) (ts : touch_state)
    (x0 y0 : Q) (moves : list (Q * Q)) :
  n <> [] -> tag_has n = true -> within_range x0 y0 moves = true ->
  run (Some (PARENT ++ n)) tag_has ts (gesture x0 y0 moves)
  = Some (mk_touch x0 y0 false, [n]).
Proof.
  intros Hn Ht Hw. pose proof (resolve_handler_parent n) as Hr.
  remember (PARENT ++ n) as name eqn:E. clear E.
  rewrite run_gesture, Hw. simpl. rewrite Hr.
  rewrite bool_decide_false by exact Hn. rewrite Ht. reflexivity.
Qed.

Lemma tap_parent_handler_witness :
  let n := js "handleTap" in
  let moves := [(3, 4)] in
  n <> [] /\ MoreInputs.tag_has n = true /\ within_range 0 0 moves = true /\
  run (Some (PARENT ++ n)) MoreInputs.tag_has MoreInputs.touch0 (gesture 0 0 moves)
  = Some (mk_touch 0 0 false, [n]).
Proof.
  intros n moves. split; [discriminate|]. split; [reflexivity|]. split; [reflexivity|].
  apply (tap_parent_handler n MoreInputs.tag_has MoreInputs.touch0 0 0 moves);
    [discriminate|reflexivity|reflexivity].
Defined.


End TouchFacts.

(* ------------------------------------------------------------------ *)
(** ** Event listener registry *)

Module ListenerFacts.
Import Listeners.

Lemma uint_js_inj (u1 u2 : Decimal.uint) : uint_js u1 = uint_js u2 -> u1 = u2.
Proof.
  revert u2. induction u1; intros u2; destruct u2; simpl; intros H;
    try discriminate; try reflexivity; injection H as H; f_equal; auto.
Qed.

Lemma eventId_inj (j k : nat) : eventId j = eventId k -> j = k.
Proof.
  unfold eventId, nat_js. intros H. apply app_inv_head in H.
  apply DecimalNat.Unsigned.to_uint_inj, uint_js_inj, H.
Qed.

Lemma uint_js_no_slash (u : Decimal.uint) : SLASH ∉ uint_js u.
Proof.
  induction u; simpl; rewrite ?elem_of_cons; try (intros [H|H]; [discriminate|tauto]).
  apply not_elem_of_nil.
Qed.

Lemma eventId_no_slash (k : nat) : SLASH ∉ eventId k.
Proof.
  unfold eventId. rewrite elem_of_app. intros [H|H].
  - simpl in H. rewrite !elem_of_cons in H. destruct H as [H|[H|H]]; try discriminate.
    apply not_elem_of_nil in H. exact H.
  - exact (uint_js_no_slash _ H).
Qed.

Lemma eventId_not_nil (k : nat) : eventId k <> [].
Proof. unfold eventId. simpl. discriminate. Qed.

Lemma split_on_single (w : jstring) : SLASH ∉ w -> split_on SLASH w = [w].
Proof.
  induction w as [|c w IH]; intros Hn; [reflexivity|].
  rewrite elem_of_cons in Hn. simpl.
  destruct (N.eqb_spec c SLASH) as [->|Hc]; [exfalso; apply Hn; left; reflexivity|].
  rewrite IH by (intros H; apply Hn; right; exact H). reflexivity.
Qed.

Lemma split_on_app (w rest : jstring) :
  SLASH ∉ w -> split_on SLASH (w ++ SLASH :: rest) = w :: split_on SLASH rest.
Proof.
  induction w as [|c w IH]; intros Hn.
  - reflexivity.
  - rewrite elem_of_cons in Hn. simpl.
    destruct (N.eqb_spec c SLASH) as [->|Hc]; [exfalso; apply Hn; left; reflexivity|].
    rewrite IH by (intros H; apply Hn; right; exact H). reflexivity.
Qed.

Lemma filter_ne_id (x : reg) (l : list reg) : x ∉ l -> filter (fun y => y <> x) l = l.
Proof.
  induction l as [|y l IH]; intros Hn; [reflexivity|].
  rewrite elem_of_cons in Hn. rewrite filter_cons.
  rewrite decide_True by (intros ->; apply Hn; left; reflexivity).
  rewrite IH by (intros H; apply Hn; right; exact H). reflexivity.
Qed.

Lemma registry_fresh (w : world) : registry_wf w -> events w !! eventId (key w) = None.
Proof.
  intros Hwf. destruct (events w !! eventId (key w)) as [x|] eqn:E; [|reflexivity].
  specialize (Hwf _ _ E). cbv beta in Hwf.
  apply list_elem_of_fmap in Hwf as [j [Hj Hin]].
  apply eventId_inj in Hj. apply elem_of_seq in Hin. lia.
Qed.

Lemma registry_fresh_ge (w : world) (n : nat) :
  registry_wf w -> (key w <= n)%nat -> events w !! eventId n = None.
Proof.
  intros Hwf Hn. destruct (events w !! eventId n) as [x|] eqn:E; [|reflexivity].
  specialize (Hwf _ _ E). cbv beta in Hwf.
  apply list_elem_of_fmap in Hwf as [j [Hj Hin]].
  apply eventId_inj in Hj. apply elem_of_seq in Hin. lia.
Qed.

Lemma registry_wf_add (w : world) (tgt lsn : nat) (ty : jstring) (cap : bool) :
  registry_wf w -> registry_wf (add tgt ty lsn cap w).1.
Proof.
  intros Hwf. unfold registry_wf, add. cbn [fst events key].
  apply map_Forall_insert_2.
  - apply list_elem_of_fmap. exists (key w). split; [reflexivity|].
    apply elem_of_seq. lia.
  - eapply map_Forall_impl; [exact Hwf|]. intros i x Hi. cbv beta in *.
    apply list_elem_of_fmap in Hi as [j [-> Hj]]. apply list_elem_of_fmap.
    exists j. split; [reflexivity|]. apply elem_of_seq in Hj. apply elem_of_seq. lia.
Qed.

Lemma add_fresh (w : world) (tgt lsn : nat) (ty : jstring) (cap : bool) :
  mk_reg tgt ty lsn cap ∉ dom w ->
  add tgt ty lsn cap w
  = (mk_world (<[eventId (key w) := mk_reg tgt ty lsn cap]> (events w)) (S (key w))
       (dom w ++ [mk_reg tgt ty lsn cap]), eventId (key w)).
Proof.
  intros Hn. unfold add, addEventListener. rewrite decide_False by exact Hn. reflexivity.
Qed.


(** X18: in a well-formed registry, adding a listener not yet in the DOM list takes a fresh id, keeps the registry well formed, appends the listener, and removing that id gives back the registry and the DOM list, with only the counter advanced. *)
Theorem closureEventListener_add_remove (w : world) (tgt lsn : nat) (ty : jstring)
    (cap : bool) :
  registry_wf w -> mk_reg tgt ty lsn cap ∉ dom w ->
  events w !! (add tgt ty lsn cap w).2 = None /\
  registry_wf (add tgt ty lsn cap w).1 /\
  dom (add tgt ty lsn cap w).1 = dom w ++ [mk_reg tgt ty lsn cap] /\
  remove (add tgt ty lsn cap w).2 (add tgt ty lsn cap w).1
  = mk_world (events w) (S (key w)) (dom w).
Proof.
  intros Hwf Hn. pose proof (registry_wf_add w tgt lsn ty cap Hwf) as Hwf'.
  rewrite add_fresh in * by exact Hn. simpl.
  pose proof (registry_fresh w Hwf) as Hf.
  split; [exact Hf|]. split; [exact Hwf'|]. split; [reflexivity|].
  unfold remove. simpl. rewrite lookup_insert_eq. simpl.
  rewrite delete_insert_id by exact Hf. unfold removeEventListener.
  rewrite filter_app, filter_ne_id by exact Hn. simpl.
  rewrite filter_cons, decide_False by (intros H; apply H; reflexivity).
  rewrite app_nil_r. reflexivity.
Qed.

Lemma closureEventListener_add_remove_witness :
  let w := MoreInputs.world0 in
  let x := mk_reg 7 (js "touchstart") 1 false in
  registry_wf w /\ (x ∉ dom w) /\
  events w !! (add 7 (js "touchstart") 1 false w).2 = None /\
  registry_wf (add 7 (js "touchstart") 1 false w).1 /\
  dom (add 7 (js "touchstart") 1 false w).1 = dom w ++ [x] /\
  remove (add 7 (js "touchstart") 1 false w).2 (add 7 (js "touchstart") 1 false w).1
  = mk_world (events w) (S (key w)) (dom w).
Proof.
  intros w x. split; [apply map_Forall_empty|]. split; [apply not_elem_of_nil|].
  apply (closureEventListener_add_remove w 7 1 (js "touchstart") false);
    [apply map_Forall_empty|apply not_elem_of_nil].
Defined.


Lemma event_types_distinct (ist : bool) :
  EVENT_TOUCHSTART ist <> EVENT_TOUCHMOVE ist /\ EVENT_TOUCHSTART ist <> EVENT_TOUCHEND ist /\
  EVENT_TOUCHMOVE ist <> EVENT_TOUCHEND ist.
Proof. destruct ist; repeat split; discriminate. Qed.

Lemma fresh_not_in (w : world) (tgt l : nat) (ty : jstring) (cap : bool) :
  fresh_listener w l -> mk_reg tgt ty l cap ∉ dom w.
Proof.
  intros Hf Hin. unfold fresh_listener in Hf. rewrite Forall_forall in Hf.
  exact (Hf _ Hin eq_refl).
Qed.

(** X19: binding an unbound element with fresh listeners appends its three touch listeners to the DOM list and keeps the registry well formed, and unbinding the element then restores the registry and the DOM list, with the counter advanced by three. *)
Theorem unbind_after_bind_restores (ist : bool) (l1 l2 l3 : nat) (elm : element) (w : world) :
  registry_wf w -> has_touchevents elm = false ->
  fresh_listener w l1 -> fresh_listener w l2 -> fresh_listener w l3 ->
  dom (bindElement ist l1 l2 l3 elm w).2
  = dom w ++ [mk_reg (elm_id elm) (EVENT_TOUCHSTART ist) l1 false;
              mk_reg (elm_id elm) (EVENT_TOUCHMOVE ist) l2 false;
              mk_reg (elm_id elm) (EVENT_TOUCHEND ist) l3 false] /\
  registry_wf (bindElement ist l1 l2 l3 elm w).2 /\
  unbindElement (bindElement ist l1 l2 l3 elm w).1 (bindElement ist l1 l2 l3 elm w).2
  = mk_world (events w) (key w + 3) (dom w).
Proof.
  intros Hwf Hb Hf1 Hf2 Hf3.
  destruct (event_types_distinct ist) as [D12 [D13 D23]].
  set (x1 := mk_reg (elm_id elm) (EVENT_TOUCHSTART ist) l1 false).
  set (x2 := mk_reg (elm_id elm) (EVENT_TOUCHMOVE ist) l2 false).
  set (x3 := mk_reg (elm_id elm) (EVENT_TOUCHEND ist) l3 false).
  assert (N1 : x1 ∉ dom w) by (apply fresh_not_in; exact Hf1).
  assert (N2 : x2 ∉ dom w) by (apply fresh_not_in; exact Hf2).
  assert (N3 : x3 ∉ dom w) by (apply fresh_not_in; exact Hf3).
  assert (E12 : x1 <> x2) by (intros H; injection H; congruence).
  assert (E13 : x1 <> x3) by (intros H; injection H; congruence).
  assert (E23 : x2 <> x3) by (intros H; injection H; congruence).
  set (i1 := eventId (key w)). set (i2 := eventId (S (key w))).
  set (i3 := eventId (S (S (key w)))).
  assert (Hbind : bindElement ist l1 l2 l3 elm w =
    (mk_elm (elm_id elm) (Some (i1 ++ [SLASH] ++ i2 ++ [SLASH] ++ i3)),
     mk_world (<[i3 := x3]> (<[i2 := x2]> (<[i1 := x1]> (events w)))) (S (S (S (key w))))
       (((dom w ++ [x1]) ++ [x2]) ++ [x3]))).
  { unfold bindElement. rewrite Hb.
    rewrite add_fresh by exact N1. cbn iota beta. fold x1.
    rewrite add_fresh. 2: { simpl. rewrite elem_of_app, list_elem_of_singleton.
                            intros [H|H]; [exact (N2 H)|exact (E12 (eq_sym H))]. }
    cbn iota beta. fold x2.
    rewrite add_fresh. 2: { simpl. rewrite !elem_of_app, !list_elem_of_singleton.
                            intros [[H|H]|H]; [exact (N3 H)|exact (E13 (eq_sym H))|exact (E23 (eq_sym H))]. }
    reflexivity. }
  rewrite Hbind. cbn [fst snd dom events key touchevents]. split; [|split].
  - rewrite <- !app_assoc. reflexivity.
  - unfold registry_wf. cbn [events key].
    assert (Hin : forall j, (j < S (S (S (key w))))%nat ->
                  eventId j ∈ eventId <$> seq 0 (S (S (S (key w))))).
    { intros j Hj. apply list_elem_of_fmap. exists j. split; [reflexivity|].
      apply elem_of_seq. lia. }
    apply map_Forall_insert_2; [apply Hin; lia|].
    apply map_Forall_insert_2; [apply Hin; lia|].
    apply map_Forall_insert_2; [apply Hin; lia|].
    eapply map_Forall_impl; [exact Hwf|]. intros i x Hi. cbv beta in *.
    apply list_elem_of_fmap in Hi as [j [-> Hj]]. apply elem_of_seq in Hj. apply Hin. lia.
  - assert (S1 : SLASH ∉ i1) by apply eventId_no_slash.
    assert (S2 : SLASH ∉ i2) by apply eventId_no_slash.
    assert (S3 : SLASH ∉ i3) by apply eventId_no_slash.
    assert (Z1 : i1 <> []) by apply eventId_not_nil.
    assert (I12 : i1 <> i2) by (intros H; apply eventId_inj in H; lia).
    assert (I13 : i1 <> i3) by (intros H; apply eventId_inj in H; lia).
    assert (I23 : i2 <> i3) by (intros H; apply eventId_inj in H; lia).
    assert (F1 : events w !! i1 = None) by (apply registry_fresh_ge; [exact Hwf|lia]).
    assert (F2 : events w !! i2 = None) by (apply registry_fresh_ge; [exact Hwf|lia]).
    assert (F3 : events w !! i3 = None) by (apply registry_fresh_ge; [exact Hwf|lia]).
    clearbody i1 i2 i3 x1 x2 x3.
    unfold unbindElement. cbn [touchevents].
    rewrite bool_decide_false by (intros H; apply app_eq_nil in H as [H _]; exact (Z1 H)).
    cbn [app]. rewrite split_on_app by exact S1. rewrite split_on_app by exact S2.
    rewrite split_on_single by exact S3. cbn [fold_left].
    unfold remove. cbn [events dom key].
    rewrite (lookup_insert_ne _ i3 i1) by congruence.
    rewrite (lookup_insert_ne _ i2 i1) by congruence. rewrite lookup_insert_eq.
    cbn [events dom key].
    rewrite (lookup_delete_ne _ i1 i2) by congruence.
    rewrite (lookup_insert_ne _ i3 i2) by congruence. rewrite lookup_insert_eq.
    cbn [events dom key].
    rewrite (lookup_delete_ne _ i2 i3) by congruence.
    rewrite (lookup_delete_ne _ i1 i3) by congruence. rewrite lookup_insert_eq.
    cbn [events dom key]. f_equal.
    + apply map_eq. intros i.
      destruct (decide (i = i3)) as [->|H3]; [rewrite lookup_delete_eq; exact (eq_sym F3)|].
      rewrite (lookup_delete_ne _ i3 i) by congruence.
      destruct (decide (i = i2)) as [->|H2]; [rewrite lookup_delete_eq; exact (eq_sym F2)|].
      rewrite (lookup_delete_ne _ i2 i) by congruence.
      destruct (decide (i = i1)) as [->|H1]; [rewrite lookup_delete_eq; exact (eq_sym F1)|].
      rewrite (lookup_delete_ne _ i1 i) by congruence.
      rewrite !lookup_insert_ne by congruence. reflexivity.
    + lia.
    + unfold removeEventListener. rewrite !filter_app.
      rewrite (filter_ne_id x1 (dom w) N1), (filter_ne_id x2 (dom w) N2),
        (filter_ne_id x3 (dom w) N3).
      repeat first [ rewrite filter_nil | rewrite filter_cons
                   | rewrite decide_True by congruence
                   | rewrite decide_False by (intros H; apply H; reflexivity) ].
      cbn [app]. rewrite !app_nil_r. reflexivity.
Qed.

Lemma unbind_after_bind_restores_witness :
  let w := MoreInputs.world0 in
  let elm := MoreInputs.elm7 in
  registry_wf w /\ has_touchevents elm = false /\
  fresh_listener w 1 /\ fresh_listener w 2 /\ fresh_listener w 3 /\
  dom (bindElement true 1 2 3 elm w).2
  = dom w ++ [mk_reg (elm_id elm) (EVENT_TOUCHSTART true) 1 false;
              mk_reg (elm_id elm) (EVENT_TOUCHMOVE true) 2 false;
              mk_reg (elm_id elm) (EVENT_TOUCHEND true) 3 false] /\
  registry_wf (bindElement true 1 2 3 elm w).2 /\
  unbindElement (bindElement true 1 2 3 elm w).1 (bindElement true 1 2 3 elm w).2
  = mk_world (events w) (key w + 3) (dom w).
Proof.
  intros w elm. split; [apply map_Forall_empty|]. split; [reflexivity|].
  split; [constructor|]. split; [constructor|]. split; [constructor|].
  apply (unbind_after_bind_restores true 1 2 3 elm w);
    [apply map_Forall_empty|reflexivity|constructor|constructor|constructor].
Defined.


Lemma bindElement_marks (ist : bool) (l1 l2 l3 : nat) (elm : element) (w : world) :
  has_touchevents (bindElement ist l1 l2 l3 elm w).1 = true.
Proof.
  unfold bindElement. destruct (has_touchevents elm) eqn:E; [exact E|].
  reflexivity.
Qed.

(** X20: binding an element a second time changes neither the element nor the registry. *)
Theorem rebind_after_bind_is_noop (ist : bool) (l1 l2 l3 : nat) (elm : element) (w : world) :
  forall (l1' l2' l3' : nat) (w' : world),
  bindElement ist l1' l2' l3' (bindElement ist l1 l2 l3 elm w).1 w'
  = ((bindElement ist l1 l2 l3 elm w).1, w').
Proof.
  intros l1' l2' l3' w'. pose proof (bindElement_marks ist l1 l2 l3 elm w) as H.
  generalize dependent (bindElement ist l1 l2 l3 elm w).1. intros e H.
  unfold bindElement. rewrite H. reflexivity.
Qed.

End ListenerFacts.
